(** * av-home: the latency-metrics calculator and its collaborators

    A shallow embedding of [src/stream_latency.py] and
    [src/apache_pinot_explanation.py], and the proofs of the properties
    the specification states about them.

    Numbers.  [compute_metrics] is annotated with [float], the spec's
    data model speaks of real numbers, and the body of the function only
    uses [-], [+], [/] and [len].  The embedding is therefore written once
    over the small arithmetic interface [PyNumber] and instantiated twice:
    - [binary64]: IEEE 754 double precision, what CPython executes
      (Rocq's primitive floats, specified by [SpecFloat]);
    - [exact]: the rationals, the "real numbers" of the spec's section 3.
    What holds for every [PyNumber] holds for both; what needs the order
    is proved from the laws [OrderedArith] and [MonotoneArith], which both
    instances satisfy; what needs exact arithmetic is proved for [exact]
    and refuted for [binary64].

    Exceptions are values of [exn]; a Python function that may raise
    returns a [result].  The streaming collector runs in a state monad over
    a [World] holding the process environment, the monotonic clock, what
    calls to the client come to and the log of the calls made.

    Layout: the definitions come first (the program, the vocabulary of
    the spec, the laws, the integer reading of binary64 values), then the
    lemmas and the theorems of the claims. *)

From Stdlib Require Import ZArith QArith Qabs Floats Lia Lqa Bool.
From stdpp Require Import base option list strings gmap.

Set Default Proof Using "All".
Set Warnings "-inexact-float".

(* ================================================================== *)
(** ** Exceptions and results *)

Inductive exn : Type :=
| IndexError
| ZeroDivisionError
| RuntimeError (msg : string)
| ServiceError (what : string).

Inductive result (A : Type) : Type :=
| Ok (a : A)
| Raise (e : exn).
Arguments Ok {A} a.
Arguments Raise {A} e.

Definition rbind {A B} (r : result A) (k : A -> result B) : result B :=
  match r with
  | Ok a => k a
  | Raise e => Raise e
  end.

Declare Scope result_scope.
Delimit Scope result_scope with result.
Notation "'let?' x ':=' r 'in' k" := (rbind r (fun x => k))
  (at level 10, x name, r at level 100, k at level 200) : result_scope.
Local Open Scope result_scope.

(** [[f(x) for x in xs]] where [f] may raise: evaluation stops at the
    first exception. *)
Fixpoint comprehension {A B} (f : A -> result B) (xs : list A) : result (list B) :=
  match xs with
  | [] => Ok []
  | x :: xs' =>
      let? y := f x in
      let? ys := comprehension f xs' in
      Ok (y :: ys)
  end.

(* ================================================================== *)
(** ** The arithmetic interface *)

Class PyNumber (F : Type) : Type := {
  py_zero : F;                 (* the literal [0.0] *)
  py_of_int : Z -> F;          (* an [int] operand coerced to [F] *)
  py_add : F -> F -> F;
  py_sub : F -> F -> F;
  py_div : F -> F -> F;        (* the quotient, for a non-zero divisor *)
  py_le : F -> F -> bool;      (* [x <= y] *)
  py_isfinite : F -> bool;     (* [math.isfinite(x)]: a real number *)
}.

(** CPython's double precision floats. An [int] operand is converted with
    round-to-nearest-even; [of_uint63] does so for every [0 <= n < 2^63],
    which covers every value [len] can return. *)
#[export] Instance binary64 : PyNumber float := {
  py_zero := 0%float;
  py_of_int n := PrimFloat.of_uint63 (Uint63.of_Z n);
  py_add := PrimFloat.add;
  py_sub := PrimFloat.sub;
  py_div := PrimFloat.div;
  py_le := PrimFloat.leb;
  py_isfinite x := PrimFloat.is_finite x;
}.

(** Exact arithmetic on rationals. *)
#[export] Instance exact : PyNumber Q := {
  py_zero := 0%Q;
  py_of_int := inject_Z;
  py_add := Qplus;
  py_sub := Qminus;
  py_div := Qdiv;
  py_le := Qle_bool;
  py_isfinite _ := true;
}.

Section Calculator.
Context {F : Type} `{PyNumber F}.

(** [len(xs)] *)
Definition len {A} (xs : list A) : Z := Z.of_nat (length xs).

(** [xs[i]]: a negative index counts from the end, an index out of range
    raises [IndexError]. *)
Definition getitem {A} (xs : list A) (i : Z) : result A :=
  let j := if (i <? 0)%Z then (i + len xs)%Z else i in
  if (j <? 0)%Z then Raise IndexError
  else match xs !! Z.to_nat j with
       | Some x => Ok x
       | None => Raise IndexError
       end.

(** [range(lo, hi)] *)
Definition range (lo hi : Z) : list Z :=
  map (fun k => (lo + Z.of_nat k)%Z) (seq 0 (Z.to_nat (hi - lo))).

(** [sum(xs)]: starts from the [int] [0] and adds the items from left to
    right. (For doubles this is what CPython does up to 3.11. From 3.12 on
    [sum] also accumulates the rounding errors of these same additions and
    adds their total to the result at the end; what is proved about
    doubles below is proved about the sum as defined here, and the
    concrete evaluations come out the same either way.) *)
Definition py_sum (xs : list F) : F :=
  fold_left py_add xs (py_of_int 0).

(** [x / n] for an [int] [n]: raises [ZeroDivisionError] when [n] is
    zero. (For a double [x] CPython tests the converted divisor
    [float(n)], which is zero exactly when [n] is:
    [binary64_divisor_nonzero].) *)
Definition truediv (x : F) (n : Z) : result F :=
  if (n =? 0)%Z then Raise ZeroDivisionError
  else Ok (py_div x (py_of_int n)).

Record LatencyMetrics : Type := mkLatencyMetrics {
  ttft : F;
  tbt : F;
  total_latency : F;
  token_count : Z;
}.

(** [timestamps[i] - timestamps[i - 1]], the element expression of the
    list comprehension. *)
Definition gap_at (timestamps : list F) (i : Z) : result F :=
  let? a := getitem timestamps i in
  let? b := getitem timestamps (i - 1) in
  Ok (py_sub a b).

Definition compute_metrics (start : F) (timestamps : list F) (last : F)
  : result LatencyMetrics :=
  let token_count := len timestamps in
  let? ttft :=
    if (token_count =? 0)%Z then Ok py_zero
    else (let? t0 := getitem timestamps 0 in Ok (py_sub t0 start)) in
  let? tbt :=
    if (token_count <=? 1)%Z then Ok py_zero
    else
      let? gaps := comprehension (gap_at timestamps) (range 1 token_count) in
      truediv (py_sum gaps) (len gaps) in
  let total_latency := py_sub last start in
  Ok (mkLatencyMetrics ttft tbt total_latency token_count).

(** *** The contract in the spec's words (section 4.1) *)

(** "consecutive differences [timestamps[i] - timestamps[i-1]]" *)
Fixpoint consecutive_differences (ts : list F) : list F :=
  match ts with
  | a :: (b :: _) as rest => py_sub b a :: consecutive_differences rest
  | _ => []
  end.

(** "the arithmetic mean": the sum divided by the count. *)
Definition arithmetic_mean (xs : list F) : F :=
  py_div (py_sum xs) (py_of_int (len xs)).

(** *** The data model in the spec's words (section 3) *)

(** [x >= 0] *)
Definition nonneg (x : F) : Prop := py_le py_zero x = true.

(** "non-decreasing" *)
Fixpoint non_decreasing (ts : list F) : bool :=
  match ts with
  | a :: (b :: _) as rest => py_le a b && non_decreasing rest
  | _ => true
  end.

(** [end >= last element of timestamps when non-empty] *)
Definition ends_after (ts : list F) (last : F) : bool :=
  match list.last ts with
  | Some tl => py_le tl last
  | None => true
  end.

(** The constraints section 3 puts on a Timing Input. *)
Definition timing_input (start : F) (ts : list F) (last : F) : bool :=
  non_decreasing ts && py_le start last && ends_after ts last.

(** Every number of the input is a real number. *)
Definition all_real (start : F) (ts : list F) (last : F) : bool :=
  py_isfinite start && forallb py_isfinite ts && py_isfinite last.

(** The request cannot be answered before it is sent. *)
Definition starts_before (start : F) (ts : list F) : bool :=
  match ts with
  | [] => true
  | t0 :: _ => py_le start t0
  end.

End Calculator.

(** The largest number of items a list can hold ([sys.maxsize]). *)
Definition maxsize : Z := (2 ^ 63 - 1)%Z.

(** What the order-related claims need of an arithmetic: rounding may
    lose precision but never turns an ordering around. *)
Class OrderedArith (F : Type) `{PyNumber F} : Prop := {
  le_transitive : forall x y z : F,
    py_le x y = true -> py_le y z = true -> py_le x z = true;
  zero_nonneg : nonneg (py_zero : F);
  int_zero_nonneg : nonneg (py_of_int 0 : F);
  sub_nonneg : forall x y : F,
    py_isfinite x = true -> py_isfinite y = true ->
    py_le y x = true -> nonneg (py_sub x y);
  add_nonneg : forall x y : F, nonneg x -> nonneg y -> nonneg (py_add x y);
  div_nonneg : forall (x : F) (n : Z),
    nonneg x -> (0 < n <= maxsize)%Z -> nonneg (py_div x (py_of_int n));
}.

Class MonotoneArith (F : Type) `{PyNumber F} : Prop := {
  sub_monotone : forall x y s : F,
    py_isfinite x = true -> py_isfinite y = true -> py_isfinite s = true ->
    py_le x y = true -> py_le (py_sub x s) (py_sub y s) = true;
}.

Arguments LatencyMetrics F : clear implicits.
Arguments mkLatencyMetrics {F} _ _ _ _.


(* ================================================================== *)
(** ** The streaming collector ([measure_latency]) *)

(** One streamed chunk, reduced to the fields the collector reads:
    [chunk.choices[0].delta.content] and [...delta.tool_calls]. *)
Record Delta : Type := mkDelta {
  content : option string;
  tool_calls : option (list string);
}.

Record Choice : Type := mkChoice { delta : option Delta }.

Record Chunk : Type := mkChunk { choices : list Choice }.

(** The arguments of one call of [client.chat.completions.create]; the
    key is the one the client was built with. *)
Record Request : Type := mkRequest {
  req_api_key : string;
  req_model : string;
  req_prompt : string;
}.

(** What one call of [create] comes to, as the program sees it: the call
    raises, or it returns a stream of chunks that ends normally or by an
    exception. How often the client library sends the HTTP request to get
    there (by default it sends it again after a retryable error) stays
    inside the call and is not modelled. *)
Inductive Response : Type :=
| Refused (what : string)
| Streamed (chunks : list Chunk) (broken : option string).

Section Collector.
Context {F : Type} `{PyNumber F}.

Record World : Type := mkWorld {
  environ : gmap string string;   (* os.environ *)
  clock : nat -> F;               (* successive readings of time.perf_counter() *)
  ticks : nat;                    (* readings taken so far *)
  service : Request -> Response;  (* what a call of [create] comes to *)
  sent : list Request;            (* calls of [create] so far, latest first *)
}.

Definition Run (A : Type) : Type := World -> result A * World.

Definition ret {A} (a : A) : Run A := fun w => (Ok a, w).

Definition raise {A} (e : exn) : Run A := fun w => (Raise e, w).

Definition bind {A B} (m : Run A) (k : A -> Run B) : Run B :=
  fun w => match m w with
           | (Ok a, w') => k a w'
           | (Raise e, w') => (Raise e, w')
           end.

Definition lift {A} (r : result A) : Run A := fun w => (r, w).

Notation "'let!' x ':=' m 'in' k" := (bind m (fun x => k))
  (at level 10, x name, m at level 100, k at level 200).

(** [os.getenv(name)] and [os.getenv(name, default)] *)
Definition getenv (name : string) : Run (option string) :=
  fun w => (Ok (environ w !! name), w).

Definition getenv_default (name dflt : string) : Run string :=
  fun w => (Ok (default dflt (environ w !! name)), w).

(** [time.perf_counter()] *)
Definition perf_counter : Run F :=
  fun w => (Ok (clock w (ticks w)),
            mkWorld (environ w) (clock w) (S (ticks w)) (service w) (sent w)).

(** [client.chat.completions.create(..., stream=True)]: one call. The
    call is logged, and the stream (or the exception) it comes to is
    returned. *)
Definition create (req : Request) : Run (list Chunk * option string) :=
  fun w =>
    let w' := mkWorld (environ w) (clock w) (ticks w) (service w) (req :: sent w) in
    match service w req with
    | Refused what => (Raise (ServiceError what), w')
    | Streamed chunks broken => (Ok (chunks, broken), w')
    end.

(** Truth value of an [Optional[str]]: [None] and the empty string are
    false. *)
Definition truthy (s : option string) : bool :=
  match s with
  | None => false
  | Some s' => negb (String.eqb s' "")
  end.

(** The test that decides whether a chunk counts as a token. *)
Definition carries_token (c : Chunk) : bool :=
  match choices c with
  | [] => false
  | ch :: _ =>
      match delta ch with
      | None => false
      | Some d =>
          let has_content :=
            match content d with
            | None => false
            | Some s => negb (String.eqb s "")
            end in
          let has_token :=
            match tool_calls d with
            | None => false
            | Some calls => (0 <? len calls)%Z
            end in
          has_content || has_token
      end
  end.

(** The [for chunk in stream] loop: a timestamp is appended for each
    chunk that carries a token. *)
Fixpoint collect (chunks : list Chunk) (timestamps : list F) : Run (list F) :=
  match chunks with
  | [] => ret timestamps
  | c :: rest =>
      if carries_token c
      then let! t := perf_counter in collect rest (timestamps ++ [t])
      else collect rest timestamps
  end.

Definition missing_key_message : string :=
  "OPENAI_API_KEY environment variable is not set.".

Definition measure_latency (prompt : string) : Run (LatencyMetrics F) :=
  let! api_key := getenv "OPENAI_API_KEY" in
  if negb (truthy api_key) then raise (RuntimeError missing_key_message)
  else
    let! model := getenv_default "OPENAI_MODEL" "gpt-4o-mini" in
    let! start := perf_counter in
    let! stream := create (mkRequest (default "" api_key) model prompt) in
    let! timestamps := collect (fst stream) [] in
    match snd stream with
    | Some what => raise (ServiceError what)
    | None =>
        let! last := perf_counter in
        lift (compute_metrics start timestamps last)
    end.

End Collector.

Arguments World F : clear implicits.
Arguments Run F A : clear implicits.

(* ================================================================== *)
(** ** The static description provider *)

(** [explain_apache_pinot()] takes no argument and reads nothing: run in
    any world, it leaves the world as it was. *)
Definition explain_apache_pinot {F : Type} : Run F string :=
  ret ("Apache Pinot is a real-time distributed OLAP datastore built for "
       ++ "serving low-latency analytics on event streams and batch data. "
       ++ "It powers user-facing dashboards and anomaly detection by combining "
       ++ "columnar storage, smart indexing, and pre-aggregation to answer "
       ++ "queries quickly at scale.")%string.


(** A world without network: the clock shows whole seconds, every call
    of [create] raises. *)
Definition offline (env : gmap string string) : World float :=
  mkWorld env (fun n => PrimFloat.of_uint63 (Uint63.of_Z (Z.of_nat n))) 0
          (fun _ => Refused "offline") [].

(* ================================================================== *)
(** ** The collector's run, in terms of the clock *)

Section CollectorVocabulary.
Context {F : Type} `{PyNumber F}.

(** The number of chunks of a stream that count as a token. *)
Definition tokens (chunks : list Chunk) : nat :=
  length (List.filter carries_token chunks).

(** [count] successive readings of the clock, from reading number [from]. *)
Definition readings (clock : nat -> F) (from count : nat) : list F :=
  map clock (seq from count).

(** The world after [n] more readings of the clock. *)
Definition later (w : World F) (n : nat) : World F :=
  mkWorld (environ w) (clock w) (ticks w + n) (service w) (sent w).

(** The call of [create] that [measure_latency] makes, from the key, the
    environment and the prompt. *)
Definition request_for (w : World F) (key prompt : string) : Request :=
  mkRequest key (default "gpt-4o-mini" (environ w !! "OPENAI_MODEL")) prompt.

(** The world after that call and [n] readings of the clock. *)
Definition requested (w : World F) (req : Request) (n : nat) : World F :=
  mkWorld (environ w) (clock w) (ticks w + n) (service w) (req :: sent w).

End CollectorVocabulary.

(* ================================================================== *)
(** ** The command line ([main])

    [_parse_args] builds an [argparse.ArgumentParser] with the single
    positional argument [prompt] and returns what its [parse_args] makes
    of the list it is given; [main] prints [json.dumps(asdict(metrics),
    indent=2)]. Both library calls are taken as they are, as parameters:
    [argparse] for the parser's verdict on an argument list, [dumps] for
    the rendering of the metrics. *)

(** What [parse_args] does with an argument list: it returns the
    namespace (here its only field, the prompt), or it writes [out] to
    standard output (the help text, for [-h]) and calls [sys.exit]. *)
Inductive Parsed : Type :=
| Prompt (prompt : string)
| Exit (status : Z) (out : list string).

(** How a run of [main] ends. *)
Inductive Outcome : Type :=
| Returned
| Exited (status : Z)
| Uncaught (e : exn).

Section Main.
Context {F : Type} `{PyNumber F}.
Variable argparse : list string -> Parsed.
Variable dumps : LatencyMetrics F -> string.

Record Process : Type := mkProcess {
  world : World F;
  stdout : list string;   (* what has been written to standard output *)
}.

(** [_parse_args(argv)] *)
Definition parse_args (argv : list string) : Parsed := argparse argv.

(** [argv or []], for [argv: Iterable[str] | None] given as a list. *)
Definition or_empty (argv : option (list string)) : list string :=
  match argv with
  | None => []
  | Some args => args
  end.

(** [main(argv)]; under [if __name__ == "__main__"] it is called as
    [main()], that is with [argv = None]. *)
Definition main (argv : option (list string)) (p : Process) : Outcome * Process :=
  match parse_args (or_empty argv) with
  | Exit status out => (Exited status, mkProcess (world p) (stdout p ++ out))
  | Prompt prompt =>
      match measure_latency prompt (world p) with
      | (Raise e, w) => (Uncaught e, mkProcess w (stdout p))
      | (Ok metrics, w) => (Returned, mkProcess w (stdout p ++ [dumps metrics]))
      end
  end.

End Main.

Arguments Process F : clear implicits.

(** Worlds and streams to run the collector on. *)
Definition token_chunk (text : string) : Chunk :=
  mkChunk [mkChoice (Some (mkDelta (Some text) None))].

Definition keepalive_chunk : Chunk := mkChunk [].

Definition steady (env : gmap string string) (answer : Response) : World float :=
  mkWorld env (fun _ => 1%float) 0 (fun _ => answer) [].

Definition with_key : gmap string string := {[ "OPENAI_API_KEY" := "sk-test" ]}.

(** A parser that accepts exactly one argument; anything else is a usage
    error. *)
Definition one_argument (argv : list string) : Parsed :=
  match argv with
  | [prompt] => Prompt prompt
  | _ => Exit 2 []
  end.

(* ================================================================== *)
(** ** Binary64 values read as integers

    Every finite double is an integer multiple of the smallest positive
    subnormal [2^emin]. The definitions below describe, on these scaled
    integers, what [SpecFloat]'s rounding computes; [prec] and [emax] are
    the precision and the exponent bound of the format (53 and 1024). *)

Module Format.
Section Defs.
Variables prec emax : Z.
Local Open Scope Z_scope.

(** What [n] single shifts leave of [m]: the quotient by [2^n], and the
    position of the remainder relative to the half. *)
Definition shifted (m : Z) (n : Z) (mrs : shr_record) : Prop :=
  let rem := m mod 2 ^ n in
  shr_m mrs = m / 2 ^ n /\
  shr_r mrs = (2 ^ n <=? 2 * rem) /\
  shr_s mrs = negb (rem =? 0) && negb (2 * rem =? 2 ^ n).

(** Round to nearest, ties to even, on the grid of multiples of [2^n]:
    the rounded quotient. *)
Definition rne (m n : Z) : Z :=
  let q := m / 2 ^ n in
  let rem := m mod 2 ^ n in
  if (2 ^ n <? 2 * rem) || ((2 * rem =? 2 ^ n) && Z.odd q) then q + 1 else q.

(** The grid exponent of a positive scaled value, the value rounded to
    the grid, and the first value too large to be finite. *)
Definition kexp (N : Z) : Z := Z.max (Z.log2 N + 1 - prec) 0.

Definition rnd (N : Z) : Z := rne N (kexp N) * 2 ^ kexp N.

Definition top : Z := 2 ^ (emax - SpecFloat.emin prec emax).

(** Rounding of a scaled value of either sign. *)
Definition rndZ (N : Z) : Z :=
  match N with
  | Z0 => 0
  | Z.pos _ => rnd N
  | Z.neg _ => - rnd (- N)
  end.

(** A finite float as an integer multiple of the smallest positive
    subnormal, [2^emin]. *)
Definition mag (m : positive) (e : Z) : Z :=
  Z.pos m * 2 ^ (e - SpecFloat.emin prec emax).

Definition Zval (f : spec_float) : Z :=
  match f with
  | S754_finite s m e => cond_Zopp s (mag m e)
  | _ => 0
  end.

Definition SFfinite (f : spec_float) : bool :=
  match f with
  | S754_zero _ | S754_finite _ _ _ => true
  | _ => false
  end.

(** [SFrep r V]: the float [r] stands for the rounded scaled value [V],
    an infinity standing for every value at or beyond [top]. *)
Definition SFrep (r : spec_float) (V : Z) : Prop :=
  match r with
  | S754_zero _ => V = 0
  | S754_finite s m e => V = cond_Zopp s (mag m e) /\ 0 < mag m e < top
  | S754_infinity s => if s then V <= - top else top <= V
  | S754_nan => False
  end.

Definition SFnonneg (r : spec_float) : bool :=
  match r with
  | S754_zero _ => true
  | S754_finite s _ _ | S754_infinity s => negb s
  | S754_nan => false
  end.

(** The value of a float on the extended line, infinities at [top]. *)
Definition ext (r : spec_float) : Z :=
  match r with
  | S754_infinity s => cond_Zopp s top
  | _ => Zval r
  end.

End Defs.
End Format.

(* ################################################################## *)
(** * Lemmas and theorems *)

(* ================================================================== *)
(** ** What the calculator returns, for every arithmetic *)

Section CalculatorFacts.
Context {F : Type} `{PyNumber F}.

Lemma getitem_lookup {A} (xs : list A) (i : nat) (x : A) :
  xs !! i = Some x -> getitem xs (Z.of_nat i) = Ok x.
Proof.
  intros Hx. unfold getitem.
  destruct (Z.ltb_spec (Z.of_nat i) 0) as [Hneg|_]; [lia|].
  destruct (Z.ltb_spec (Z.of_nat i) 0) as [Hneg|_]; [lia|].
  rewrite Nat2Z.id, Hx. reflexivity.
Qed.

Lemma range_from_1 (n : nat) :
  range 1 (Z.of_nat (S n)) = map (fun k => Z.of_nat (S k)) (seq 0 n).
Proof.
  unfold range.
  replace (Z.to_nat (Z.of_nat (S n) - 1)) with n by lia.
  apply map_ext. intros k. lia.
Qed.

Lemma gap_at_lookup (ts : list F) (i : nat) (a b : F) :
  ts !! i = Some b -> ts !! S i = Some a ->
  gap_at ts (Z.of_nat (S i)) = Ok (py_sub a b).
Proof.
  intros Hb Ha. unfold gap_at.
  rewrite (getitem_lookup _ _ _ Ha). simpl.
  replace (Z.of_nat (S i) - 1)%Z with (Z.of_nat i) by lia.
  rewrite (getitem_lookup _ _ _ Hb). reflexivity.
Qed.

(** The comprehension walks the list pairwise: with [pre] already
    behind, the remaining indices produce the differences of the rest. *)
Lemma gaps_suffix (pre : list F) (a : F) (rest : list F) :
  comprehension (gap_at (pre ++ a :: rest))
    (map (fun k => Z.of_nat (S (length pre + k))) (seq 0 (length rest)))
  = Ok (consecutive_differences (a :: rest)).
Proof.
  revert pre a. induction rest as [|b rest IH]; intros pre a.
  - reflexivity.
  - cbn [length seq map comprehension].
    rewrite (gap_at_lookup _ (length pre + 0) b a).
    + cbn [rbind]. rewrite <- seq_shift, map_map.
      specialize (IH (pre ++ [a]) b).
      rewrite <- app_assoc in IH. cbn [app] in IH.
      rewrite length_app in IH. cbn [length] in IH.
      rewrite (map_ext _ (fun k => Z.of_nat (S (length pre + 1 + k)))), IH;
        [reflexivity|].
      intros k. lia.
    + rewrite Nat.add_0_r. apply list_lookup_middle. reflexivity.
    + rewrite Nat.add_0_r.
      change (pre ++ a :: b :: rest) with (pre ++ [a] ++ b :: rest).
      rewrite app_assoc. apply list_lookup_middle.
      rewrite length_app. cbn. lia.
Qed.

Lemma gaps_all (a : F) (rest : list F) :
  comprehension (gap_at (a :: rest)) (range 1 (len (a :: rest)))
  = Ok (consecutive_differences (a :: rest)).
Proof.
  unfold len. cbn [length]. rewrite range_from_1.
  apply (gaps_suffix [] a rest).
Qed.

Lemma consecutive_differences_length (ts : list F) :
  length (consecutive_differences ts) = pred (length ts).
Proof.
  induction ts as [|a [|b rest] IH]; try reflexivity.
  cbn [consecutive_differences length] in *. rewrite IH. reflexivity.
Qed.

(** The difference at position [i] is [ts[i+1] - ts[i]]. *)
Lemma consecutive_differences_lookup (ts : list F) (i : nat) (a b : F) :
  ts !! i = Some b -> ts !! S i = Some a ->
  consecutive_differences ts !! i = Some (py_sub a b).
Proof.
  revert i. induction ts as [|x [|y rest] IH]; intros i Hb Ha.
  - discriminate.
  - destruct i; discriminate.
  - destruct i as [|i].
    + cbn in *. congruence.
    + cbn [consecutive_differences]. cbn [lookup list_lookup] in *.
      apply IH; assumption.
Qed.

(** The whole function, as one equation. *)
Lemma compute_metrics_eq (start : F) (ts : list F) (last : F) :
  compute_metrics start ts last
  = Ok (mkLatencyMetrics
          (match ts with [] => py_zero | t0 :: _ => py_sub t0 start end)
          (if (len ts <=? 1)%Z then py_zero
           else arithmetic_mean (consecutive_differences ts))
          (py_sub last start)
          (len ts)).
Proof.
  unfold compute_metrics.
  destruct ts as [|t0 rest]; [reflexivity|].
  replace (len (t0 :: rest) =? 0)%Z with false
    by (symmetry; apply Z.eqb_neq; unfold len; cbn; lia).
  change (getitem (t0 :: rest) 0) with (Ok t0 : result F). cbn [rbind].
  destruct (Z.leb_spec (len (t0 :: rest)) 1) as [Hle|Hgt]; [reflexivity|].
  rewrite gaps_all. cbn [rbind].
  unfold truediv, arithmetic_mean.
  replace (len (consecutive_differences (t0 :: rest)) =? 0)%Z with false.
  - reflexivity.
  - symmetry. apply Z.eqb_neq. unfold len in *.
    rewrite consecutive_differences_length. cbn [length] in *. lia.
Qed.

End CalculatorFacts.


(** The worked example of the spec's section 8, in both arithmetics. *)
Example ex_float : compute_metrics 0%float [1%float; 3%float; 6%float] 7%float
  = Ok (mkLatencyMetrics 1%float 2.5%float 7%float 3%Z).
Proof. vm_compute. reflexivity. Qed.

Example ex_exact : compute_metrics 0%Q [1; 3; 6]%Q 7%Q
  = Ok (mkLatencyMetrics (1 - 0)%Q ((0 + (3 - 1) + (6 - 3)) / 2)%Q (7 - 0)%Q 3%Z).
Proof. reflexivity. Qed.

(* ================================================================== *)
(** ** The contract of section 4.1, for every arithmetic *)

Section Contract.
Context {F : Type} `{PyNumber F}.

(** C1: the mean inter-token gap ([tbt]) is [0.0] when there is at most
    one timestamp, and otherwise the arithmetic mean of the consecutive
    differences; there are [len - 1] of them, and the one at position [i]
    is [timestamps[i+1] - timestamps[i]]. *)
Theorem mean_inter_token_gap_spec (start : F) (timestamps : list F) (last : F) :
  exists m,
    compute_metrics start timestamps last = Ok m /\
    tbt m = (if (len timestamps <=? 1)%Z then py_zero
             else arithmetic_mean (consecutive_differences timestamps)) /\
    length (consecutive_differences timestamps) = pred (length timestamps) /\
    (forall i a b,
        timestamps !! i = Some b -> timestamps !! S i = Some a ->
        consecutive_differences timestamps !! i = Some (py_sub a b)).
Proof.
  eexists. split; [apply compute_metrics_eq|]. cbn [tbt].
  split; [reflexivity|]. split.
  - apply consecutive_differences_length.
  - intros i a b. apply consecutive_differences_lookup.
Qed.

(** C2: the time to first token ([ttft]) is [timestamps[0] - start] when
    there is a timestamp and [0.0] when there is none. *)
Theorem time_to_first_token_spec (start : F) (timestamps : list F) (last : F) :
  exists m,
    compute_metrics start timestamps last = Ok m /\
    ttft m = match timestamps with
             | [] => py_zero
             | t0 :: _ => py_sub t0 start
             end.
Proof.
  eexists. split; [apply compute_metrics_eq|]. reflexivity.
Qed.

(** C3: [token_count] is the length of [timestamps] and [total_latency]
    is [end - start]. *)
Theorem token_count_total_latency_spec (start : F) (timestamps : list F) (last : F) :
  exists m,
    compute_metrics start timestamps last = Ok m /\
    token_count m = Z.of_nat (length timestamps) /\
    total_latency m = py_sub last start.
Proof.
  eexists. split; [apply compute_metrics_eq|]. split; reflexivity.
Qed.

(** C4: [compute_metrics] returns a value on every input and raises
    nothing; when the mean is computed at all (more than one timestamp)
    the list of gaps it divides by is not empty, so the division does not
    raise. *)
Theorem compute_metrics_total (start : F) (timestamps : list F) (last : F) :
  (exists m, compute_metrics start timestamps last = Ok m) /\
  (forall e, compute_metrics start timestamps last <> Raise e) /\
  ((len timestamps <=? 1)%Z = false ->
   exists gaps,
     comprehension (gap_at timestamps) (range 1 (len timestamps)) = Ok gaps /\
     len gaps <> 0%Z /\
     truediv (py_sum gaps) (len gaps)
     = Ok (py_div (py_sum gaps) (py_of_int (len gaps)))).
Proof.
  rewrite compute_metrics_eq. split; [eauto|]. split; [discriminate|].
  intros Hgt. apply Z.leb_gt in Hgt.
  destruct timestamps as [|t0 rest]; [unfold len in Hgt; cbn in Hgt; lia|].
  exists (consecutive_differences (t0 :: rest)).
  split; [apply gaps_all|].
  assert (Hne : len (consecutive_differences (t0 :: rest)) <> 0%Z).
  { unfold len in *. rewrite consecutive_differences_length.
    cbn [length] in *. lia. }
  split; [exact Hne|].
  unfold truediv. apply Z.eqb_neq in Hne. rewrite Hne. reflexivity.
Qed.

End Contract.

Lemma compute_metrics_total_witness :
  exists gaps : list float,
    comprehension (gap_at [1; 3; 6]%float) (range 1 3) = Ok gaps /\
    len gaps <> 0%Z.
Proof.
  destruct (compute_metrics_total 0%float [1; 3; 6]%float 7%float)
    as (_ & _ & Hdiv).
  destruct (Hdiv eq_refl) as (gaps & Hgaps & Hne & _).
  exists gaps. split; assumption.
Defined.


(* ================================================================== *)
(** ** The collector's only error of its own, and the description *)

Section CollectorFacts.
Context {F : Type} `{PyNumber F}.

Lemma collect_returns (chunks : list Chunk) (acc : list F) (w : World F) :
  exists ts w', collect chunks acc w = (Ok ts, w').
Proof.
  revert acc w. induction chunks as [|c rest IH]; intros acc w.
  - eexists _, _. reflexivity.
  - cbn [collect]. destruct (carries_token c).
    + unfold bind, perf_counter. apply IH.
    + apply IH.
Qed.

(** With a usable key, the only exceptions that leave [measure_latency]
    come from the service. *)
Lemma measure_latency_with_key (prompt key : string) (w : World F) :
  environ w !! "OPENAI_API_KEY" = Some key -> key <> "" ->
  forall e w', measure_latency prompt w = (Raise e, w') ->
               exists what, e = ServiceError what.
Proof.
  intros Hkey Hne e w'. unfold measure_latency, bind at 1, getenv.
  rewrite Hkey. cbn [truthy].
  destruct (String.eqb_spec key "") as [->|_]; [congruence|]. cbn [negb].
  unfold bind at 1, getenv_default. unfold bind at 1, perf_counter.
  unfold bind at 1, create. cbn [service environ clock ticks sent].
  destruct (service w _) as [what|chunks broken].
  - intros [= <- _]. eauto.
  - cbn [fst snd]. unfold bind at 1.
    destruct (collect_returns chunks [] (mkWorld (environ w) (clock w) (S (ticks w))
      (service w) (mkRequest (default "" (Some key))
        (default "gpt-4o-mini" (environ w !! "OPENAI_MODEL")) prompt :: sent w)))
      as (ts & w1 & ->).
    destruct broken as [what|].
    + intros [= <- _]. eauto.
    + unfold bind, perf_counter, lift. rewrite compute_metrics_eq. discriminate.
Qed.

(** C7: with [OPENAI_API_KEY] unset, [measure_latency] raises
    [RuntimeError] with the message "OPENAI_API_KEY environment variable
    is not set." and leaves the world untouched: no request has been sent
    and the clock has not been read. It is the only exception the program
    raises itself: whenever [measure_latency] raises, either it is this
    one, raised because the key is missing or empty, or it comes from the
    service. *)
Theorem measure_latency_unset_key (prompt : string) (w : World F) :
  environ w !! "OPENAI_API_KEY" = None ->
  measure_latency prompt w = (Raise (RuntimeError missing_key_message), w) /\
  missing_key_message = "OPENAI_API_KEY environment variable is not set." /\
  missing_key_message <> "" /\
  (forall prompt' (w0 w1 : World F) e,
      measure_latency prompt' w0 = (Raise e, w1) ->
      (e = RuntimeError missing_key_message /\ w1 = w0 /\
       truthy (environ w0 !! "OPENAI_API_KEY") = false)
      \/ (exists what, e = ServiceError what)).
Proof.
  intros Hunset. split; [|split; [reflexivity|split; [discriminate|]]].
  - unfold measure_latency, bind, getenv. rewrite Hunset. reflexivity.
  - intros prompt' w0 w1 e Hrun.
    destruct (environ w0 !! "OPENAI_API_KEY") as [key|] eqn:Hkey.
    + destruct (String.eqb_spec key "") as [->|Hne].
      * left. unfold measure_latency, bind, getenv in Hrun.
        rewrite Hkey in Hrun. cbn in Hrun. injection Hrun as <- <-. auto.
      * right. eapply measure_latency_with_key; eassumption.
    + left. unfold measure_latency, bind, getenv in Hrun.
      rewrite Hkey in Hrun. cbn in Hrun. injection Hrun as <- <-. auto.
Qed.

(** C10: with [OPENAI_API_KEY] set to the empty string, [measure_latency]
    raises the same [RuntimeError], with the world untouched, as it does
    in the world where the variable has been removed. *)
Theorem measure_latency_empty_key (prompt : string) (w : World F) :
  environ w !! "OPENAI_API_KEY" = Some "" ->
  measure_latency prompt w = (Raise (RuntimeError missing_key_message), w) /\
  fst (measure_latency prompt w)
  = fst (measure_latency prompt
           (mkWorld (delete "OPENAI_API_KEY" (environ w))
                    (clock w) (ticks w) (service w) (sent w))).
Proof.
  intros Hempty.
  assert (Hrun : measure_latency prompt w
                 = (Raise (RuntimeError missing_key_message), w)).
  { unfold measure_latency, bind, getenv. rewrite Hempty. reflexivity. }
  split; [exact Hrun|]. rewrite Hrun.
  unfold measure_latency, bind, getenv. cbn [environ].
  rewrite lookup_delete_eq. reflexivity.
Qed.

End CollectorFacts.

(** C8: [explain_apache_pinot] returns one fixed non-empty string, in
    every world and however often it is called, and changes nothing. *)
Theorem explain_apache_pinot_constant :
  exists s : string,
    s <> "" /\ (0 < String.length s)%nat /\
    (forall F (w : World F), explain_apache_pinot w = (Ok s, w)) /\
    (forall F (w : World F),
        bind explain_apache_pinot (fun _ => explain_apache_pinot) w = (Ok s, w)).
Proof.
  eexists. split; [|split; [|split; intros; reflexivity]].
  - discriminate.
  - vm_compute. lia.
Qed.


(* ================================================================== *)
(** ** Signs and order of the metrics, in an ordered arithmetic *)

Section Order.
Context {F : Type} `{OrderedArith F}.

Lemma fold_add_nonneg (xs : list F) (acc : F) :
  nonneg acc -> Forall nonneg xs -> nonneg (fold_left py_add xs acc).
Proof.
  intros Hacc Hxs. revert acc Hacc.
  induction Hxs as [|x xs Hx _ IH]; intros acc Hacc; cbn [fold_left].
  - exact Hacc.
  - apply IH, add_nonneg; assumption.
Qed.

Lemma py_sum_nonneg (xs : list F) : Forall nonneg xs -> nonneg (py_sum xs).
Proof. apply fold_add_nonneg, int_zero_nonneg. Qed.

Lemma gaps_nonneg (ts : list F) :
  forallb py_isfinite ts = true -> non_decreasing ts = true ->
  Forall nonneg (consecutive_differences ts).
Proof.
  induction ts as [|a [|b rest] IH]; intros Hfin Hnd; try constructor.
  - cbn [forallb non_decreasing] in *.
    apply andb_prop in Hfin as [Ha Hfin]. apply andb_prop in Hnd as [Hab _].
    apply andb_prop in Hfin as [Hb _].
    apply sub_nonneg; assumption.
  - apply IH.
    + cbn [forallb] in *. apply andb_prop in Hfin as [_ Hfin]. exact Hfin.
    + cbn [non_decreasing] in Hnd. apply andb_prop in Hnd as [_ Hnd]. exact Hnd.
Qed.

Lemma mean_gap_nonneg (ts : list F) :
  forallb py_isfinite ts = true -> non_decreasing ts = true ->
  (len ts <= maxsize)%Z ->
  nonneg (if (len ts <=? 1)%Z then py_zero
          else arithmetic_mean (consecutive_differences ts)).
Proof.
  intros Hfin Hnd Hlen.
  destruct (Z.leb_spec (len ts) 1) as [_|Hgt]; [apply zero_nonneg|].
  unfold arithmetic_mean. apply div_nonneg.
  - apply py_sum_nonneg, gaps_nonneg; assumption.
  - unfold len in *. rewrite consecutive_differences_length. lia.
Qed.

(** The first timestamp is no later than [end]. *)
Lemma first_before_end (t0 : F) (rest : list F) (last : F) :
  non_decreasing (t0 :: rest) = true -> ends_after (t0 :: rest) last = true ->
  py_le t0 last = true.
Proof.
  revert t0. induction rest as [|b rest IH]; intros t0 Hnd Hend.
  - exact Hend.
  - cbn [non_decreasing] in Hnd. apply andb_prop in Hnd as [Hab Hnd].
    apply (le_transitive _ b); [exact Hab|].
    apply IH; [exact Hnd|].
    unfold ends_after in *. rewrite last_cons_cons in Hend. exact Hend.
Qed.

End Order.

(** Exact arithmetic is ordered and monotone. *)
#[export] Instance exact_ordered : OrderedArith Q.
Proof.
  split; unfold nonneg; cbn [py_le py_zero py_of_int py_sub py_add py_div
                              py_isfinite exact].
  - intros x y z Hxy Hyz. apply Qle_bool_iff in Hxy, Hyz.
    apply Qle_bool_iff. eapply Qle_trans; eassumption.
  - reflexivity.
  - reflexivity.
  - intros x y _ _ Hyx. apply Qle_bool_iff in Hyx. apply Qle_bool_iff. lra.
  - intros x y Hx Hy. apply Qle_bool_iff in Hx, Hy. apply Qle_bool_iff. lra.
  - intros x n Hx [Hn _]. apply Qle_bool_iff in Hx. apply Qle_bool_iff.
    apply Qle_shift_div_l.
    + change 0%Q with (inject_Z 0). rewrite <- Zlt_Qlt. exact Hn.
    + lra.
Qed.

#[export] Instance exact_monotone : MonotoneArith Q.
Proof.
  split. cbn [py_le py_sub exact]. intros x y s _ _ _ Hxy.
  apply Qle_bool_iff in Hxy. apply Qle_bool_iff. lra.
Qed.

(** In exact arithmetic the sum of the consecutive differences
    telescopes. *)
Lemma exact_sum_telescopes (a : Q) (rest : list Q) (acc tn : Q) :
  list.last (a :: rest) = Some tn ->
  fold_left Qplus (consecutive_differences (a :: rest)) acc == acc + (tn - a).
Proof.
  revert a acc. induction rest as [|b rest IH]; intros a acc Hlast.
  - injection Hlast as <-. cbn. lra.
  - rewrite last_cons_cons in Hlast.
    change (consecutive_differences (a :: b :: rest))
      with (Qminus b a :: consecutive_differences (b :: rest)).
    cbn [fold_left]. rewrite (IH b _ Hlast). lra.
Qed.


(* ================================================================== *)
(** ** What [SpecFloat]'s rounding computes

    For any format with [0 < prec < emax]: shifting right is division
    with a located remainder, [binary_round] is [rnd] on scaled integers,
    [rnd] is monotone, and on valid floats [SFcompare] compares values. *)

Section Rounding.
Variables prec emax : Z.
Hypothesis Hprec : (0 < prec)%Z.
Hypothesis Hemax : (prec < emax)%Z.
Local Open Scope Z_scope.

Local Abbreviation shifted := Format.shifted.
Local Abbreviation rne := Format.rne.
Local Abbreviation kexp := (Format.kexp prec).
Local Abbreviation rnd := (Format.rnd prec).
Local Abbreviation top := (Format.top prec emax).
Local Abbreviation rndZ := (Format.rndZ prec).
Local Abbreviation mag := (Format.mag prec emax).
Local Abbreviation Zval := (Format.Zval prec emax).
Local Abbreviation SFfinite := Format.SFfinite.
Local Abbreviation SFrep := (Format.SFrep prec emax).
Local Abbreviation SFnonneg := Format.SFnonneg.
Local Abbreviation ext := (Format.ext prec emax).

Lemma digits2_pos_log2 (p : positive) :
  Z.pos (digits2_pos p) = Z.log2 (Z.pos p) + 1.
Proof.
  assert (Hsize : forall q, digits2_pos q = Pos.size q).
  { induction q as [q IH|q IH|]; cbn; rewrite ?IH; reflexivity. }
  rewrite Hsize. destruct p as [p|p|]; cbn [Z.log2 Pos.size]; lia.
Qed.

Lemma Zdigits2_log2 (m : Z) : 0 < m -> Zdigits2 m = Z.log2 m + 1.
Proof.
  destruct m as [|p|p]; try lia. intros _. apply digits2_pos_log2.
Qed.

Lemma iter_pos_nat {A} (f : A -> A) (n : positive) (x : A) :
  SpecFloat.iter_pos f n x = Nat.iter (Pos.to_nat n) f x.
Proof.
  revert x. induction n as [n IH|n IH|]; intros x; cbn [SpecFloat.iter_pos].
  - rewrite !IH.
    replace (Pos.to_nat n~1) with (Pos.to_nat n + (Pos.to_nat n + 1))%nat by lia.
    rewrite !Nat.iter_add. reflexivity.
  - rewrite !IH.
    replace (Pos.to_nat n~0) with (Pos.to_nat n + Pos.to_nat n)%nat by lia.
    rewrite Nat.iter_add. reflexivity.
  - reflexivity.
Qed.

Lemma shr_1_nonneg (m : Z) (r s : bool) :
  0 <= m ->
  shr_1 (Build_shr_record m r s) = Build_shr_record (Z.div2 m) (Z.odd m) (r || s).
Proof.
  intros Hm. destruct m as [|[p|p|]|p]; try lia; reflexivity.
Qed.

Lemma shifted_0 (m : Z) : shifted m 0 (Build_shr_record m false false).
Proof.
  unfold shifted. cbn [shr_m shr_r shr_s].
  rewrite Z.pow_0_r, Z.div_1_r, Z.mod_1_r. repeat split.
Qed.

Lemma shifted_step (m n : Z) (mrs : shr_record) :
  0 <= m -> 0 <= n -> shifted m n mrs -> shifted m (n + 1) (shr_1 mrs).
Proof.
  intros Hm Hn (Hq & Hr & Hs). destruct mrs as [q r s]. cbn [shr_m shr_r shr_s] in *.
  assert (Hpow : 0 < 2 ^ n) by (apply Z.pow_pos_nonneg; lia).
  assert (Hq0 : 0 <= q) by (subst q; apply Z.div_pos; lia).
  rewrite shr_1_nonneg by exact Hq0.
  unfold shifted. cbn [shr_m shr_r shr_s].
  rewrite Z.pow_add_r, Z.pow_1_r by lia.
  pose proof (Z.div_mod m (2 ^ n) ltac:(lia)) as Hdm.
  pose proof (Z.mod_pos_bound m (2 ^ n) Hpow) as Hrem.
  pose proof (Zdiv2_odd_eqn q) as Hodd.
  set (rem := m mod 2 ^ n) in *. rewrite <- Hq in Hdm.
  set (b := if Z.odd q then 1 else 0) in *.
  assert (Hb : 0 <= b <= 1) by (subst b; destruct (Z.odd q); lia).
  assert (Hdiv : m / (2 ^ n * 2) = Z.div2 q).
  { symmetry. apply (Z.div_unique_pos m (2 ^ n * 2) (Z.div2 q) (b * 2 ^ n + rem)); nia. }
  assert (Hmod : m mod (2 ^ n * 2) = b * 2 ^ n + rem).
  { symmetry. apply (Z.mod_unique_pos m (2 ^ n * 2) (Z.div2 q) (b * 2 ^ n + rem)); nia. }
  rewrite Hdiv, Hmod. split; [reflexivity|]. split.
  - subst b. destruct (Z.odd q).
    + symmetry. apply Z.leb_le. nia.
    + symmetry. apply Z.leb_gt. nia.
  - rewrite Hr, Hs. subst b.
    destruct (Z.leb_spec (2 ^ n) (2 * rem)), (Z.eqb_spec rem 0),
      (Z.eqb_spec (2 * rem) (2 ^ n)), (Z.odd q); cbn;
      repeat match goal with
             | |- context [?a =? ?c] => destruct (Z.eqb_spec a c)
             end; cbn; try reflexivity; try nia.
Qed.

Lemma shifted_iter (m : Z) (n : nat) :
  0 <= m ->
  shifted m (Z.of_nat n) (Nat.iter n shr_1 (Build_shr_record m false false)).
Proof.
  intros Hm. induction n as [|n IH].
  - apply shifted_0.
  - rewrite Nat2Z.inj_succ, <- Z.add_1_r. cbn [Nat.iter].
    apply shifted_step; [exact Hm|lia|exact IH].
Qed.


Lemma round_shifted (m n : Z) (mrs : shr_record) :
  0 <= n -> shifted m n mrs ->
  round_nearest_even (shr_m mrs) (loc_of_shr_record mrs) = rne m n.
Proof.
  intros Hn (Hq & Hr & Hs). destruct mrs as [q r s]. cbn [shr_m shr_r shr_s] in *.
  assert (Hpow : 0 < 2 ^ n) by (apply Z.pow_pos_nonneg; lia).
  pose proof (Z.mod_pos_bound m (2 ^ n) Hpow) as Hrem.
  unfold rne. rewrite <- Hq. set (rem := m mod 2 ^ n) in *.
  destruct (Z.leb_spec (2 ^ n) (2 * rem)), (Z.eqb_spec rem 0),
    (Z.eqb_spec (2 * rem) (2 ^ n)), (Z.ltb_spec (2 ^ n) (2 * rem));
    subst r s; cbn; try lia; try reflexivity;
    rewrite <- Z.negb_odd; destruct (Z.odd q); reflexivity.
Qed.

Lemma shr_spec (m e n : Z) :
  0 <= m ->
  exists mrs, shr (Build_shr_record m false false) e n = (mrs, e + Z.max n 0) /\
              shifted m (Z.max n 0) mrs.
Proof.
  intros Hm. destruct n as [|p|p]; cbn [shr].
  - eexists. split; [rewrite Z.add_0_r; reflexivity|apply shifted_0].
  - eexists. split; [replace (Z.max (Z.pos p) 0) with (Z.pos p) by lia; reflexivity|].
    rewrite iter_pos_nat. replace (Z.max (Z.pos p) 0) with (Z.of_nat (Pos.to_nat p)) by lia.
    apply shifted_iter. exact Hm.
  - eexists. split; [replace (Z.max (Z.neg p) 0) with 0 by lia; rewrite Z.add_0_r; reflexivity|].
    replace (Z.max (Z.neg p) 0) with 0 by lia. apply shifted_0.
Qed.

(** [binary_round_aux] on an exact non-negative mantissa, as arithmetic. *)
Lemma binary_round_aux_exact (s : bool) (m e : Z) :
  0 <= m ->
  let n1 := Z.max (fexp prec emax (Zdigits2 m + e) - e) 0 in
  let q' := rne m n1 in
  let e' := e + n1 in
  let n2 := Z.max (fexp prec emax (Zdigits2 q' + e') - e') 0 in
  binary_round_aux prec emax s m e loc_Exact
  = match q' / 2 ^ n2 with
    | Z0 => S754_zero s
    | Z.pos p => if e' + n2 <=? emax - prec then S754_finite s p (e' + n2)
                 else S754_infinity s
    | Z.neg _ => S754_nan
    end.
Proof.
  intros Hm n1 q' e' n2. unfold binary_round_aux, shr_fexp.
  cbn [shr_record_of_loc].
  destruct (shr_spec m e (fexp prec emax (Zdigits2 m + e) - e) Hm) as (mrs1 & -> & Hsh1).
  fold n1 in Hsh1 |- *. rewrite (round_shifted m n1 mrs1) by (try exact Hsh1; lia).
  fold q' e'.
  assert (Hq' : 0 <= q').
  { subst q'. unfold rne.
    assert (0 <= m / 2 ^ n1) by (apply Z.div_pos; [lia|apply Z.pow_pos_nonneg; lia]).
    destruct (_ || _); lia. }
  destruct (shr_spec q' e' (fexp prec emax (Zdigits2 q' + e') - e') Hq') as (mrs2 & -> & Hsh2).
  fold n2 in Hsh2 |- *. destruct Hsh2 as (-> & _). reflexivity.
Qed.


Lemma pow2_pos (n : Z) : 0 <= n -> 0 < 2 ^ n.
Proof. intros. apply Z.pow_pos_nonneg; lia. Qed.

Lemma pow2_le (a b : Z) : a <= b -> 2 ^ a <= 2 ^ b.
Proof. intros. apply Z.pow_le_mono_r; lia. Qed.

Lemma pow2_lt (a b : Z) : 0 <= b -> a < b -> 2 ^ a < 2 ^ b.
Proof. intros. apply Z.pow_lt_mono_r; lia. Qed.

Lemma pow2_add (a b : Z) : 0 <= a -> 0 <= b -> 2 ^ (a + b) = 2 ^ a * 2 ^ b.
Proof. intros. apply Z.pow_add_r; assumption. Qed.

Lemma pos_iter_xO (m d : positive) :
  Z.pos (Pos.iter xO m d) = Z.pos m * 2 ^ Z.pos d.
Proof.
  induction d as [|d IH] using Pos.peano_ind.
  - cbn [Pos.iter]. lia.
  - rewrite Pos.iter_succ, Pos2Z.inj_xO, IH, Pos2Z.inj_succ, Z.pow_succ_r by lia. lia.
Qed.

Lemma shl_align_spec (m : positive) (e e' : Z) (mz : positive) (ez : Z) :
  shl_align m e e' = (mz, ez) ->
  ez = Z.min e e' /\ Z.pos mz = Z.pos m * 2 ^ (e - ez).
Proof.
  unfold shl_align. destruct (e' - e) as [|d|d] eqn:Hd; intros [= <- <-].
  - split; [lia|]. rewrite Z.sub_diag. lia.
  - split; [lia|]. rewrite Z.sub_diag. lia.
  - split; [lia|]. rewrite pos_iter_xO. f_equal. f_equal. lia.
Qed.

(** Rounding does not depend on the unit the mantissa is written in. *)
Lemma rne_scale (m n j : Z) :
  0 <= m -> 0 <= n -> 0 <= j -> rne (m * 2 ^ j) (n + j) = rne m n.
Proof.
  intros Hm Hn Hj. unfold rne.
  pose proof (pow2_pos n Hn) as Hpn. pose proof (pow2_pos j Hj) as Hpj.
  rewrite pow2_add by assumption.
  rewrite Z.div_mul_cancel_r by lia.
  rewrite Z.mul_mod_distr_r by lia.
  set (q := m / 2 ^ n). set (rem := m mod 2 ^ n).
  replace (2 ^ n * 2 ^ j <? 2 * (rem * 2 ^ j)) with (2 ^ n <? 2 * rem).
  2:{ destruct (Z.ltb_spec (2 ^ n) (2 * rem)); symmetry;
      [apply Z.ltb_lt|apply Z.ltb_ge]; nia. }
  replace (2 * (rem * 2 ^ j) =? 2 ^ n * 2 ^ j) with (2 * rem =? 2 ^ n).
  2:{ destruct (Z.eqb_spec (2 * rem) (2 ^ n)); symmetry;
      [apply Z.eqb_eq|apply Z.eqb_neq]; nia. }
  reflexivity.
Qed.

Lemma rne_0 (m : Z) : rne m 0 = m.
Proof.
  unfold rne. rewrite Z.pow_0_r, Z.div_1_r, Z.mod_1_r. reflexivity.
Qed.

(** The rounded quotient is the quotient or its successor. *)
Lemma rne_bounds (m n : Z) : m / 2 ^ n <= rne m n <= m / 2 ^ n + 1.
Proof. unfold rne. destruct (_ || _); lia. Qed.


Lemma quotient_bounds (a n p : Z) :
  0 <= n -> 0 <= p -> 2 ^ (p + n) <= a < 2 ^ (p + 1 + n) ->
  2 ^ p <= a / 2 ^ n < 2 ^ (p + 1).
Proof.
  intros Hn Hp [Hlo Hhi].
  pose proof (pow2_pos n Hn). rewrite !pow2_add in * by lia.
  split.
  - apply Z.div_le_lower_bound; lia.
  - apply Z.div_lt_upper_bound; lia.
Qed.

Lemma binary_round_spec (s : bool) (m : positive) (e : Z) :
  SpecFloat.emin prec emax <= e ->
  let V := rnd (Z.pos m * 2 ^ (e - SpecFloat.emin prec emax)) in
  (V < top /\
   exists m' e', binary_round prec emax s m e = S754_finite s m' e' /\
                 Z.pos m' * 2 ^ (e' - SpecFloat.emin prec emax) = V /\
                 SpecFloat.emin prec emax <= e')
  \/ (top <= V /\ binary_round prec emax s m e = S754_infinity s).
Proof.
  intros He V. subst V. unfold top.
  assert (Hem : SpecFloat.emin prec emax = 3 - emax - prec) by reflexivity.
  set (em := SpecFloat.emin prec emax) in *.
  set (d := Z.log2 (Z.pos m) + 1).
  assert (Hd : 1 <= d) by (pose proof (Z.log2_nonneg (Z.pos m)); lia).
  set (N := Z.pos m * 2 ^ (e - em)).
  assert (HlogN : Z.log2 N = e - em + Z.log2 (Z.pos m))
    by (apply Z.log2_mul_pow2; lia).
  unfold binary_round. rewrite digits2_pos_log2. fold d.
  set (t := fexp prec emax (d + e)).
  assert (Ht : t = Z.max (d + e - prec) em) by reflexivity.
  clearbody t.
  destruct (shl_align m e t) as [mz ez] eqn:Hal.
  apply shl_align_spec in Hal as [Hez Hmz].
  assert (Hlogz : Z.log2 (Z.pos mz) = e - ez + Z.log2 (Z.pos m))
    by (rewrite Hmz; apply Z.log2_mul_pow2; lia).
  rewrite binary_round_aux_exact by lia. cbv zeta.
  rewrite (Zdigits2_log2 (Z.pos mz)) by lia.
  replace (Z.log2 (Z.pos mz) + 1 + ez) with (d + e) by lia.
  change (fexp prec emax (d + e)) with (Z.max (d + e - prec) em). rewrite <- Ht.
  replace (Z.max (t - ez) 0) with (t - ez) by lia.
  replace (ez + (t - ez)) with t by lia.
  set (q' := rne (Z.pos mz) (t - ez)).
  assert (Hk : kexp N = t - em) by (unfold kexp; lia).
  assert (HN : N = Z.pos mz * 2 ^ (ez - em)).
  { unfold N. rewrite Hmz, <- Z.mul_assoc, <- pow2_add by lia. f_equal. f_equal. lia. }
  assert (Hrnd : rnd N = q' * 2 ^ (t - em)).
  { unfold rnd. rewrite Hk. f_equal.
    replace (t - em) with (t - ez + (ez - em)) by lia.
    rewrite HN. apply rne_scale; lia. }
  rewrite Hrnd.
  pose proof (Z.log2_spec (Z.pos mz) ltac:(lia)) as Hmzb.
  pose proof (rne_bounds (Z.pos mz) (t - ez)) as Hq'b. fold q' in Hq'b.
  destruct (Z.le_gt_cases em (d + e - prec)) as [Hnormal|Hsub].
  - (* normal range: the quotient has exactly [prec] digits *)
    assert (Htn : t = d + e - prec) by lia.
    assert (Hq : 2 ^ (prec - 1) <= Z.pos mz / 2 ^ (t - ez) < 2 ^ (prec - 1 + 1)).
    { apply quotient_bounds; [lia|lia|].
      replace (prec - 1 + (t - ez)) with (Z.log2 (Z.pos mz)) by lia.
      replace (prec - 1 + 1 + (t - ez)) with (Z.succ (Z.log2 (Z.pos mz))) by lia.
      exact Hmzb. }
    replace (prec - 1 + 1) with prec in Hq by lia.
    pose proof (pow2_pos (prec - 1) ltac:(lia)) as Hpp.
    assert (Hpp2 : 2 ^ prec = 2 * 2 ^ (prec - 1)).
    { replace prec with (1 + (prec - 1)) at 1 by lia. rewrite pow2_add by lia. lia. }
    pose proof (pow2_pos (t - em) ltac:(lia)) as Hpt.
    destruct (Z.lt_ge_cases q' (2 ^ prec)) as [Hlt|Hge].
    + assert (Hlogq : Z.log2 q' = prec - 1).
      { apply Z.log2_unique; [lia|]. replace (Z.succ (prec - 1)) with prec by lia. lia. }
      rewrite (Zdigits2_log2 q') by lia. rewrite Hlogq.
      replace (fexp prec emax (prec - 1 + 1 + t)) with t
        by (unfold fexp; fold em; lia).
      replace (Z.max (t - t) 0) with 0 by lia.
      rewrite Z.pow_0_r, Z.div_1_r, Z.add_0_r.
      destruct q' as [|p|p] eqn:Hq'; try lia.
      destruct (Z.leb_spec t (emax - prec)) as [Hfin|Hinf].
      * left. split.
        { apply Z.lt_le_trans with (2 ^ prec * 2 ^ (t - em)); [nia|].
          rewrite <- pow2_add by lia. apply pow2_le. lia. }
        exists p, t. repeat split; lia.
      * right. split; [|reflexivity].
        apply Z.le_trans with (2 ^ (prec - 1) * 2 ^ (t - em)); [|nia].
        rewrite <- pow2_add by lia. apply pow2_le. lia.
    + assert (Hq'e : q' = 2 ^ prec) by lia.
      assert (Hlogq : Z.log2 q' = prec) by (rewrite Hq'e; apply Z.log2_pow2; lia).
      rewrite (Zdigits2_log2 q') by lia. rewrite Hlogq.
      replace (fexp prec emax (prec + 1 + t)) with (t + 1)
        by (unfold fexp; fold em; lia).
      replace (Z.max (t + 1 - t) 0) with 1 by lia.
      assert (Hdiv : q' / 2 ^ 1 = 2 ^ (prec - 1)).
      { rewrite Z.pow_1_r. symmetry. apply Z.div_unique_exact; lia. }
      assert (HV : q' * 2 ^ (t - em) = 2 ^ (prec + (t - em))).
      { rewrite Hq'e. symmetry. apply pow2_add; lia. }
      rewrite Hdiv, HV.
      destruct (2 ^ (prec - 1)) as [|p|p] eqn:Hp; try lia.
      destruct (Z.leb_spec (t + 1) (emax - prec)) as [Hfin|Hinf].
      * left. split; [apply pow2_lt; lia|].
        exists p, (t + 1). split; [reflexivity|]. split; [|lia].
        rewrite <- HV.
        replace (t + 1 - em) with (1 + (t - em)) by lia.
        rewrite pow2_add, Z.pow_1_r by lia. lia.
      * right. split; [apply pow2_le; lia|reflexivity].
  - (* subnormal range: nothing is shifted out *)
    assert (Hte : t = em) by lia.
    assert (Heze : ez = em) by lia.
    assert (Hq'e : q' = Z.pos mz).
    { unfold q'. replace (t - ez) with 0 by lia. apply rne_0. }
    rewrite Hq'e. rewrite (Zdigits2_log2 (Z.pos mz)) by lia.
    replace (fexp prec emax (Z.log2 (Z.pos mz) + 1 + t)) with t
      by (unfold fexp; fold em; lia).
    replace (Z.max (t - t) 0) with 0 by lia.
    rewrite Z.pow_0_r, Z.div_1_r, Z.add_0_r.
    destruct (Z.leb_spec t (emax - prec)) as [_|Hinf]; [|lia].
    left. split.
    + replace (t - em) with 0 by lia. rewrite Z.pow_0_r, Z.mul_1_r.
      apply Z.lt_le_trans with (2 ^ Z.succ (Z.log2 (Z.pos mz))); [lia|].
      apply pow2_le. lia.
    + exists mz, t. repeat split; lia.
Qed.


Lemma kexp_range (N : Z) : 0 < N -> 0 <= kexp N <= Z.log2 N.
Proof. intros HN. pose proof (Z.log2_nonneg N). unfold kexp. lia. Qed.

Lemma rnd_lower (N : Z) : 0 < N -> 2 ^ Z.log2 N <= rnd N.
Proof.
  intros HN. pose proof (kexp_range N HN) as Hk.
  pose proof (Z.log2_spec N HN) as [Hlo _].
  pose proof (pow2_pos (kexp N) ltac:(lia)) as Hp.
  pose proof (rne_bounds N (kexp N)) as [Hq _].
  assert (Hdiv : 2 ^ (Z.log2 N - kexp N) <= N / 2 ^ kexp N).
  { apply Z.div_le_lower_bound; [lia|]. rewrite <- pow2_add by lia.
    replace (kexp N + (Z.log2 N - kexp N)) with (Z.log2 N) by lia. exact Hlo. }
  unfold rnd.
  replace (Z.log2 N) with (Z.log2 N - kexp N + kexp N) at 1 by lia.
  rewrite pow2_add by lia. nia.
Qed.

Lemma rnd_upper (N : Z) : 0 < N -> rnd N <= 2 ^ (Z.log2 N + 1).
Proof.
  intros HN. pose proof (kexp_range N HN) as Hk.
  pose proof (Z.log2_spec N HN) as [_ Hhi].
  pose proof (pow2_pos (kexp N) ltac:(lia)) as Hp.
  pose proof (rne_bounds N (kexp N)) as [_ Hq].
  assert (Hdiv : N / 2 ^ kexp N < 2 ^ (Z.log2 N + 1 - kexp N)).
  { apply Z.div_lt_upper_bound; [lia|]. rewrite <- pow2_add by lia.
    replace (kexp N + (Z.log2 N + 1 - kexp N)) with (Z.succ (Z.log2 N)) by lia.
    exact Hhi. }
  unfold rnd.
  replace (Z.log2 N + 1) with (Z.log2 N + 1 - kexp N + kexp N) at 1 by lia.
  rewrite pow2_add by lia. nia.
Qed.

Lemma rnd_positive (N : Z) : 0 < N -> 0 < rnd N.
Proof.
  intros HN. pose proof (rnd_lower N HN).
  pose proof (pow2_pos (Z.log2 N) (Z.log2_nonneg N)). lia.
Qed.

(** A value already on its grid is left alone. *)
Lemma rnd_exact (N : Z) : 0 < N -> N mod 2 ^ kexp N = 0 -> rnd N = N.
Proof.
  intros HN Hmod. pose proof (kexp_range N HN) as Hk.
  pose proof (pow2_pos (kexp N) ltac:(lia)) as Hp.
  unfold rnd, rne. rewrite Hmod.
  replace (2 ^ kexp N <? 2 * 0) with false by (symmetry; apply Z.ltb_ge; lia).
  replace (2 * 0 =? 2 ^ kexp N) with false by (symmetry; apply Z.eqb_neq; lia).
  cbn [orb andb].
  pose proof (Z.div_mod N (2 ^ kexp N) ltac:(lia)). lia.
Qed.

Lemma rne_monotone (a b n : Z) : 0 <= n -> a <= b -> rne a n <= rne b n.
Proof.
  intros Hn Hab. pose proof (pow2_pos n Hn) as Hp.
  pose proof (Z.div_le_mono a b (2 ^ n) ltac:(lia) Hab) as Hq.
  pose proof (rne_bounds a n) as [_ Ha]. pose proof (rne_bounds b n) as [Hb _].
  destruct (Z.eq_dec (a / 2 ^ n) (b / 2 ^ n)) as [Heq|Hne]; [|lia].
  pose proof (Z.div_mod a (2 ^ n) ltac:(lia)) as Hda.
  pose proof (Z.div_mod b (2 ^ n) ltac:(lia)) as Hdb.
  assert (Hrem : a mod 2 ^ n <= b mod 2 ^ n) by nia.
  unfold rne. rewrite Heq.
  set (ra := a mod 2 ^ n) in *. set (rb := b mod 2 ^ n) in *.
  destruct (Z.ltb_spec (2 ^ n) (2 * ra)), (Z.ltb_spec (2 ^ n) (2 * rb)),
    (Z.eqb_spec (2 * ra) (2 ^ n)), (Z.eqb_spec (2 * rb) (2 ^ n)),
    (Z.odd (b / 2 ^ n)); cbn [orb andb]; lia.
Qed.

Lemma rnd_monotone (a b : Z) : 0 < a -> a <= b -> rnd a <= rnd b.
Proof.
  intros Ha Hab.
  pose proof (Z.log2_le_mono a b Hab) as Hlog.
  destruct (Z.eq_dec (Z.log2 a) (Z.log2 b)) as [Heq|Hne].
  - assert (Hk : kexp a = kexp b) by (unfold kexp; lia).
    pose proof (kexp_range b ltac:(lia)) as Hkb.
    pose proof (pow2_pos (kexp b) ltac:(lia)) as Hp.
    pose proof (rne_monotone a b (kexp b) ltac:(lia) Hab).
    unfold rnd. rewrite Hk. nia.
  - apply Z.le_trans with (2 ^ (Z.log2 a + 1)); [apply rnd_upper; lia|].
    apply Z.le_trans with (2 ^ Z.log2 b); [apply pow2_le; lia|].
    apply rnd_lower. lia.
Qed.

Lemma rndZ_monotone (a b : Z) : a <= b -> rndZ a <= rndZ b.
Proof.
  intros Hab. destruct a as [|a|a], b as [|b|b]; cbn [rndZ]; try lia.
  - pose proof (rnd_positive (Z.pos b)). lia.
  - apply rnd_monotone; lia.
  - pose proof (rnd_positive (- Z.neg a)). lia.
  - pose proof (rnd_positive (- Z.neg a)). pose proof (rnd_positive (Z.pos b)). lia.
  - pose proof (rnd_monotone (- Z.neg b) (- Z.neg a)). lia.
Qed.

Lemma rndZ_sign (N : Z) : (0 <= N -> 0 <= rndZ N) /\ (N <= 0 -> rndZ N <= 0).
Proof.
  destruct N as [|p|p]; cbn [rndZ]; split; intros; try lia.
  - pose proof (rnd_positive (Z.pos p)). lia.
  - pose proof (rnd_positive (- Z.neg p)). lia.
Qed.


Lemma canonical_grid (m : positive) (e : Z) :
  canonical_mantissa prec emax m e = true ->
  SpecFloat.emin prec emax <= e /\
  0 < mag m e /\
  Z.log2 (mag m e) = e - SpecFloat.emin prec emax + Z.log2 (Z.pos m) /\
  kexp (mag m e) = e - SpecFloat.emin prec emax.
Proof.
  unfold canonical_mantissa, fexp. rewrite digits2_pos_log2. intros Hc.
  apply Z.eqb_eq in Hc. set (em := SpecFloat.emin prec emax) in *.
  assert (He : em <= e) by lia.
  pose proof (pow2_pos (e - em) ltac:(lia)).
  assert (Hlog : Z.log2 (mag m e) = e - em + Z.log2 (Z.pos m))
    by (apply Z.log2_mul_pow2; lia).
  split; [exact He|]. split; [unfold mag; fold em; lia|]. split; [exact Hlog|].
  unfold kexp. rewrite Hlog. lia.
Qed.

Lemma rnd_canonical (m : positive) (e : Z) :
  canonical_mantissa prec emax m e = true -> rnd (mag m e) = mag m e.
Proof.
  intros Hc. destruct (canonical_grid m e Hc) as (He & Hpos & _ & Hk).
  apply rnd_exact; [exact Hpos|]. rewrite Hk. unfold mag.
  apply Z.mod_mul. pose proof (pow2_pos (e - SpecFloat.emin prec emax)). lia.
Qed.

Lemma mag_bounded (m : positive) (e : Z) :
  bounded prec emax m e = true -> mag m e < top.
Proof.
  unfold bounded. intros Hb. apply andb_prop in Hb as [Hc He].
  apply Z.leb_le in He.
  destruct (canonical_grid m e Hc) as (Hem & Hpos & Hlog & Hk).
  pose proof (Z.log2_spec (mag m e) Hpos) as [_ Hhi].
  apply Z.lt_le_trans with (1 := Hhi). unfold top. apply pow2_le.
  unfold kexp in Hk. set (em := SpecFloat.emin prec emax) in *.
  assert (3 - emax - prec = em) by reflexivity. lia.
Qed.

Lemma mag_compare (m1 : positive) (e1 : Z) (m2 : positive) (e2 : Z) :
  canonical_mantissa prec emax m1 e1 = true ->
  canonical_mantissa prec emax m2 e2 = true ->
  (mag m1 e1 ?= mag m2 e2)
  = match e1 ?= e2 with
    | Lt => Lt
    | Gt => Gt
    | Eq => Pos.compare_cont Eq m1 m2
    end.
Proof.
  intros Hc1 Hc2.
  destruct (canonical_grid m1 e1 Hc1) as (He1 & Hp1 & Hl1 & Hk1).
  destruct (canonical_grid m2 e2 Hc2) as (He2 & Hp2 & Hl2 & Hk2).
  pose proof (Z.log2_spec _ Hp1) as [Hlo1 Hhi1].
  pose proof (Z.log2_spec _ Hp2) as [Hlo2 Hhi2].
  unfold kexp in Hk1, Hk2.
  destruct (Z.compare_spec e1 e2) as [Heq|Hlt|Hgt].
  - subst e2. unfold mag.
    rewrite <- Zmult_compare_compat_r by (apply Z.lt_gt, pow2_pos; lia).
    reflexivity.
  - apply Z.compare_lt_iff.
    apply Z.lt_le_trans with (1 := Hhi1).
    apply Z.le_trans with (2 := Hlo2). apply pow2_le. lia.
  - apply Z.compare_gt_iff.
    apply Z.lt_le_trans with (1 := Hhi2).
    apply Z.le_trans with (2 := Hlo1). apply pow2_le. lia.
Qed.

(** On valid finite floats the comparison is the comparison of values. *)
Lemma SFcompare_Zval (x y : spec_float) :
  SpecFloat.valid_binary prec emax x = true -> SpecFloat.valid_binary prec emax y = true ->
  SFfinite x = true -> SFfinite y = true ->
  SFcompare x y = Some (Zval x ?= Zval y).
Proof.
  intros Hx Hy Hfx Hfy.
  destruct x as [sx| | |sx mx ex], y as [sy| | |sy my ey]; try discriminate;
    cbn [SpecFloat.valid_binary] in Hx, Hy; unfold bounded in *;
    cbn [SFcompare Zval].
  - reflexivity.
  - apply andb_prop in Hy as [Hy _].
    destruct (canonical_grid my ey Hy) as (_ & Hp & _).
    destruct sy; cbn [cond_Zopp]; f_equal; symmetry;
      [apply Z.compare_gt_iff|apply Z.compare_lt_iff]; lia.
  - apply andb_prop in Hx as [Hx _].
    destruct (canonical_grid mx ex Hx) as (_ & Hp & _).
    destruct sx; cbn [cond_Zopp]; f_equal; symmetry;
      [apply Z.compare_lt_iff|apply Z.compare_gt_iff]; lia.
  - apply andb_prop in Hx as [Hx _]. apply andb_prop in Hy as [Hy _].
    destruct (canonical_grid mx ex Hx) as (_ & Hpx & _).
    destruct (canonical_grid my ey Hy) as (_ & Hpy & _).
    destruct sx, sy; cbn [cond_Zopp]; f_equal.
    + rewrite Z.compare_opp, (mag_compare my ey mx ex Hy Hx).
      rewrite (Z.compare_antisym ex ey).
      destruct (ex ?= ey); cbn [CompOpp]; try reflexivity.
      apply (Pos.compare_cont_antisym mx my Eq).
    + symmetry. apply Z.compare_lt_iff. lia.
    + symmetry. apply Z.compare_gt_iff. lia.
    + symmetry. apply mag_compare; assumption.
Qed.


Lemma top_positive : 0 < top.
Proof.
  unfold top. apply pow2_pos.
  assert (SpecFloat.emin prec emax = 3 - emax - prec) by reflexivity. lia.
Qed.

Lemma rndZ_opp (N : Z) : rndZ (- N) = - rndZ N.
Proof.
  destruct N as [|p|p]; [reflexivity| |].
  - change (- Z.pos p) with (Z.neg p). cbn [rndZ].
    change (- Z.neg p) with (Z.pos p). reflexivity.
  - change (- Z.neg p) with (Z.pos p). cbn [rndZ].
    change (- Z.neg p) with (Z.pos p). lia.
Qed.

Lemma rndZ_pos (N : Z) : 0 < N -> rndZ N = rnd N.
Proof. destruct N; cbn [rndZ]; lia. Qed.

Lemma rndZ_cond_Zopp (s : bool) (N : Z) :
  0 < N -> rndZ (cond_Zopp s N) = cond_Zopp s (rnd N).
Proof.
  intros HN. destruct s; cbn [cond_Zopp].
  - rewrite rndZ_opp, rndZ_pos by exact HN. reflexivity.
  - apply rndZ_pos, HN.
Qed.

Lemma binary_normalize_rep (D e : Z) :
  SpecFloat.emin prec emax <= e ->
  SFrep (binary_normalize prec emax D e false)
        (rndZ (D * 2 ^ (e - SpecFloat.emin prec emax))).
Proof.
  intros He.
  pose proof (pow2_pos (e - SpecFloat.emin prec emax) ltac:(lia)) as Hp.
  assert (Hround : forall s p,
    SFrep (binary_round prec emax s p e)
          (cond_Zopp s (rnd (Z.pos p * 2 ^ (e - SpecFloat.emin prec emax))))).
  { intros s p.
    pose proof (rnd_positive (Z.pos p * 2 ^ (e - SpecFloat.emin prec emax)) ltac:(lia)) as HV.
    destruct (binary_round_spec s p e He) as [(Hlt & m' & e' & -> & Hval & He')|(Hge & ->)].
    - cbn [SFrep]. unfold mag. rewrite Hval. split; [reflexivity|lia].
    - cbn [SFrep]. destruct s; cbn [cond_Zopp]; lia. }
  destruct D as [|p|p]; cbn [binary_normalize].
  - reflexivity.
  - rewrite rndZ_pos by lia. apply (Hround false p).
  - replace (Z.neg p * 2 ^ (e - SpecFloat.emin prec emax))
      with (cond_Zopp true (Z.pos p * 2 ^ (e - SpecFloat.emin prec emax)))
      by (cbn [cond_Zopp]; lia).
    rewrite rndZ_cond_Zopp by lia. apply (Hround true p).
Qed.

Lemma valid_finite_facts (s : bool) (m : positive) (e : Z) :
  SpecFloat.valid_binary prec emax (S754_finite s m e) = true ->
  SpecFloat.emin prec emax <= e /\ 0 < mag m e < top /\ rnd (mag m e) = mag m e.
Proof.
  cbn [SpecFloat.valid_binary]. intros Hb.
  pose proof (mag_bounded m e Hb) as Htop.
  unfold bounded in Hb. apply andb_prop in Hb as [Hc _].
  destruct (canonical_grid m e Hc) as (He & Hpos & _).
  repeat split; try assumption. apply rnd_canonical, Hc.
Qed.

(** A valid finite float stands for its own value. *)
Lemma SFrep_valid (x : spec_float) :
  SpecFloat.valid_binary prec emax x = true -> SFfinite x = true ->
  SFrep x (Zval x) /\ rndZ (Zval x) = Zval x.
Proof.
  intros Hv Hf. destruct x as [s| | |s m e]; try discriminate.
  - split; reflexivity.
  - destruct (valid_finite_facts s m e Hv) as (_ & Hm & Hfix).
    cbn [SFrep Zval]. split; [split; [reflexivity|exact Hm]|].
    rewrite rndZ_cond_Zopp by lia. rewrite Hfix. reflexivity.
Qed.

Lemma aligned_value (s : bool) (m : positive) (e ez : Z) :
  SpecFloat.emin prec emax <= ez -> ez <= e ->
  cond_Zopp s (Z.pos (fst (shl_align m e ez))) * 2 ^ (ez - SpecFloat.emin prec emax)
  = cond_Zopp s (mag m e).
Proof.
  intros Hez Hle. destruct (shl_align m e ez) as [mz ez'] eqn:Hal.
  apply shl_align_spec in Hal as [Hez' Hmz]. cbn [fst].
  assert (Hmag : Z.pos mz * 2 ^ (ez - SpecFloat.emin prec emax) = mag m e).
  { unfold mag. rewrite Hmz, <- Z.mul_assoc, <- pow2_add by lia.
    f_equal. f_equal. lia. }
  destruct s; cbn [cond_Zopp]; lia.
Qed.

Lemma SFsub_rep (x y : spec_float) :
  SpecFloat.valid_binary prec emax x = true ->
  SpecFloat.valid_binary prec emax y = true ->
  SFfinite x = true -> SFfinite y = true ->
  SFrep (SFsub prec emax x y) (rndZ (Zval x - Zval y)).
Proof.
  intros Hx Hy Hfx Hfy.
  destruct x as [sx| | |sx mx ex], y as [sy| | |sy my ey]; try discriminate.
  - cbn [SFsub Zval]. destruct sx, sy; reflexivity.
  - cbn [SFsub]. change (Zval (S754_zero sx)) with 0. rewrite Z.sub_0_l, rndZ_opp.
    destruct (SFrep_valid _ Hy eq_refl) as [_ ->].
    destruct (valid_finite_facts sy my ey Hy) as (_ & Hm & _).
    cbn [SFrep Zval]. split; [destruct sy; cbn [cond_Zopp negb]; lia|exact Hm].
  - cbn [SFsub]. change (Zval (S754_zero sy)) with 0. rewrite Z.sub_0_r.
    destruct (SFrep_valid _ Hx eq_refl) as [Hrep ->]. exact Hrep.
  - destruct (valid_finite_facts sx mx ex Hx) as (Hex & _).
    destruct (valid_finite_facts sy my ey Hy) as (Hey & _).
    cbn [SFsub Zval].
    rewrite <- (aligned_value sx mx ex (Z.min ex ey)) by lia.
    rewrite <- (aligned_value sy my ey (Z.min ex ey)) by lia.
    rewrite <- Z.mul_sub_distr_r.
    apply binary_normalize_rep. lia.
Qed.

Lemma SFadd_rep (x y : spec_float) :
  SpecFloat.valid_binary prec emax x = true ->
  SpecFloat.valid_binary prec emax y = true ->
  SFfinite x = true -> SFfinite y = true ->
  SFrep (SFadd prec emax x y) (rndZ (Zval x + Zval y)).
Proof.
  intros Hx Hy Hfx Hfy.
  destruct x as [sx| | |sx mx ex], y as [sy| | |sy my ey]; try discriminate.
  - cbn [SFadd Zval]. destruct sx, sy; reflexivity.
  - cbn [SFadd]. change (Zval (S754_zero sx)) with 0. rewrite Z.add_0_l.
    destruct (SFrep_valid _ Hy eq_refl) as [Hrep ->]. exact Hrep.
  - cbn [SFadd]. change (Zval (S754_zero sy)) with 0. rewrite Z.add_0_r.
    destruct (SFrep_valid _ Hx eq_refl) as [Hrep ->]. exact Hrep.
  - destruct (valid_finite_facts sx mx ex Hx) as (Hex & _).
    destruct (valid_finite_facts sy my ey Hy) as (Hey & _).
    cbn [SFadd Zval].
    rewrite <- (aligned_value sx mx ex (Z.min ex ey)) by lia.
    rewrite <- (aligned_value sy my ey (Z.min ex ey)) by lia.
    rewrite <- Z.mul_add_distr_r.
    apply binary_normalize_rep. lia.
Qed.

Lemma SFrep_nonneg (r : spec_float) (V : Z) :
  SFrep r V -> 0 <= V -> SFnonneg r = true.
Proof.
  pose proof top_positive.
  destruct r as [s|s| |s m e]; cbn [SFrep SFnonneg]; try easy;
    destruct s; cbn [cond_Zopp negb]; try reflexivity; lia.
Qed.

Lemma SFleb_zero (r : spec_float) : SFleb (S754_zero false) r = SFnonneg r.
Proof. destruct r as [s|s| |s m e]; try destruct s; reflexivity. Qed.

(** Floats that stand for ordered values are ordered. *)
Lemma SFrep_leb (r1 r2 : spec_float) (V1 V2 : Z) :
  SpecFloat.valid_binary prec emax r1 = true ->
  SpecFloat.valid_binary prec emax r2 = true ->
  SFrep r1 V1 -> SFrep r2 V2 -> V1 <= V2 -> SFleb r1 r2 = true.
Proof.
  intros Hv1 Hv2 H1 H2 Hle. pose proof top_positive as Htop.
  assert (Hfin : forall r V, SFfinite r = true -> SFrep r V ->
                             Zval r = V /\ - top < V < top).
  { intros [s|s| |s m e] V Hf Hr; try discriminate; cbn [SFrep Zval] in *.
    - lia.
    - destruct s; cbn [cond_Zopp] in *; lia. }
  destruct (SFfinite r1) eqn:Hf1, (SFfinite r2) eqn:Hf2.
  - destruct (Hfin _ _ Hf1 H1) as [Hz1 _]. destruct (Hfin _ _ Hf2 H2) as [Hz2 _].
    unfold SFleb. rewrite (SFcompare_Zval r1 r2) by assumption.
    rewrite Hz1, Hz2. destruct (Z.compare_spec V1 V2); try reflexivity; lia.
  - destruct (Hfin _ _ Hf1 H1) as [_ Hb1].
    destruct r2 as [s2|s2| |s2 m2 e2]; try discriminate; cbn [SFrep] in H2; [|easy].
    destruct s2; [lia|].
    destruct r1 as [s1|s1| |s1 m1 e1]; try discriminate; reflexivity.
  - destruct (Hfin _ _ Hf2 H2) as [_ Hb2].
    destruct r1 as [s1|s1| |s1 m1 e1]; try discriminate; cbn [SFrep] in H1; [|easy].
    destruct s1; [|lia].
    destruct r2 as [s2|s2| |s2 m2 e2]; try discriminate; reflexivity.
  - destruct r1 as [s1|s1| |s1 m1 e1]; try discriminate; cbn [SFrep] in H1; [|easy].
    destruct r2 as [s2|s2| |s2 m2 e2]; try discriminate; cbn [SFrep] in H2; [|easy].
    destruct s1, s2; try reflexivity; lia.
Qed.


Lemma SFrep_ext (r : spec_float) :
  SpecFloat.valid_binary prec emax r = true -> r <> S754_nan -> SFrep r (ext r).
Proof.
  intros Hv Hnan. destruct r as [s|s| |s m e]; try easy.
  - destruct s; cbn; lia.
  - apply SFrep_valid; [exact Hv|reflexivity].
Qed.

Lemma SFleb_ext (r1 r2 : spec_float) :
  SpecFloat.valid_binary prec emax r1 = true ->
  SpecFloat.valid_binary prec emax r2 = true ->
  SFleb r1 r2 = true ->
  r1 <> S754_nan /\ r2 <> S754_nan /\ ext r1 <= ext r2.
Proof.
  intros Hv1 Hv2 Hle. pose proof top_positive as Htop.
  assert (Hfin : forall r, SpecFloat.valid_binary prec emax r = true ->
                           SFfinite r = true -> - top < ext r < top).
  { intros [s|s| |s m e] Hv Hf; try discriminate; cbn [ext Zval].
    - lia.
    - destruct (valid_finite_facts s m e Hv) as (_ & Hm & _).
      destruct s; cbn [cond_Zopp]; lia. }
  destruct (SFfinite r1) eqn:Hf1, (SFfinite r2) eqn:Hf2.
  - unfold SFleb in Hle. rewrite (SFcompare_Zval r1 r2) in Hle by assumption.
    assert (ext r1 = Zval r1) as -> by (destruct r1; try discriminate; reflexivity).
    assert (ext r2 = Zval r2) as -> by (destruct r2; try discriminate; reflexivity).
    repeat split; try (intros ->; discriminate).
    destruct (Z.compare_spec (Zval r1) (Zval r2)); try discriminate; lia.
  - pose proof (Hfin r1 Hv1 Hf1).
    destruct r2 as [s2|s2| |s2 m2 e2]; try discriminate;
      destruct r1 as [s1|s1| |s1 m1 e1]; try discriminate;
      destruct s2; try discriminate; repeat split; try discriminate;
      cbn [ext cond_Zopp] in *; lia.
  - pose proof (Hfin r2 Hv2 Hf2).
    destruct r1 as [s1|s1| |s1 m1 e1]; try discriminate;
      destruct r2 as [s2|s2| |s2 m2 e2]; try discriminate;
      destruct s1; try discriminate; repeat split; try discriminate;
      cbn [ext cond_Zopp] in *; lia.
  - destruct r1 as [s1|s1| |s1 m1 e1]; try discriminate;
      destruct r2 as [s2|s2| |s2 m2 e2]; try discriminate;
      destruct s1, s2; try discriminate; repeat split; try discriminate;
      cbn [ext cond_Zopp]; lia.
Qed.

Lemma SFleb_transitive (x y z : spec_float) :
  SpecFloat.valid_binary prec emax x = true ->
  SpecFloat.valid_binary prec emax y = true ->
  SpecFloat.valid_binary prec emax z = true ->
  SFleb x y = true -> SFleb y z = true -> SFleb x z = true.
Proof.
  intros Hx Hy Hz Hxy Hyz.
  destruct (SFleb_ext x y Hx Hy Hxy) as (Hnx & _ & Hle1).
  destruct (SFleb_ext y z Hy Hz Hyz) as (_ & Hnz & Hle2).
  apply (SFrep_leb x z (ext x) (ext z)); try assumption;
    try (apply SFrep_ext; assumption). lia.
Qed.

Lemma SFsub_monotone (x y s : spec_float) :
  SpecFloat.valid_binary prec emax x = true ->
  SpecFloat.valid_binary prec emax y = true ->
  SpecFloat.valid_binary prec emax s = true ->
  SpecFloat.valid_binary prec emax (SFsub prec emax x s) = true ->
  SpecFloat.valid_binary prec emax (SFsub prec emax y s) = true ->
  SFfinite x = true -> SFfinite y = true -> SFfinite s = true ->
  SFleb x y = true ->
  SFleb (SFsub prec emax x s) (SFsub prec emax y s) = true.
Proof.
  intros Hx Hy Hs Hxs Hys Hfx Hfy Hfs Hle.
  destruct (SFleb_ext x y Hx Hy Hle) as (_ & _ & Hext).
  assert (ext x = Zval x) as Hex by (destruct x; try discriminate; reflexivity).
  assert (ext y = Zval y) as Hey by (destruct y; try discriminate; reflexivity).
  apply (SFrep_leb _ _ (rndZ (Zval x - Zval s)) (rndZ (Zval y - Zval s)));
    try assumption; try (apply SFsub_rep; assumption).
  apply rndZ_monotone. lia.
Qed.

Lemma SFsub_nonneg (x y : spec_float) :
  SpecFloat.valid_binary prec emax x = true ->
  SpecFloat.valid_binary prec emax y = true ->
  SFfinite x = true -> SFfinite y = true ->
  SFleb y x = true -> SFnonneg (SFsub prec emax x y) = true.
Proof.
  intros Hx Hy Hfx Hfy Hle.
  destruct (SFleb_ext y x Hy Hx Hle) as (_ & _ & Hext).
  assert (ext x = Zval x) as Hex by (destruct x; try discriminate; reflexivity).
  assert (ext y = Zval y) as Hey by (destruct y; try discriminate; reflexivity).
  apply (SFrep_nonneg _ (rndZ (Zval x - Zval y))).
  - apply SFsub_rep; assumption.
  - apply rndZ_sign. lia.
Qed.

Lemma SFnonneg_Zval (x : spec_float) :
  SpecFloat.valid_binary prec emax x = true -> SFnonneg x = true -> 0 <= Zval x.
Proof.
  intros Hv Hn. destruct x as [s|s| |s m e]; cbn [Zval]; try lia.
  destruct (valid_finite_facts s m e Hv) as (_ & Hm & _).
  destruct s; [discriminate|]. cbn [cond_Zopp]. lia.
Qed.

Lemma SFadd_nonneg (x y : spec_float) :
  SpecFloat.valid_binary prec emax x = true ->
  SpecFloat.valid_binary prec emax y = true ->
  SFnonneg x = true -> SFnonneg y = true ->
  SFnonneg (SFadd prec emax x y) = true.
Proof.
  intros Hx Hy Hnx Hny.
  destruct (SFfinite x) eqn:Hfx, (SFfinite y) eqn:Hfy.
  - apply (SFrep_nonneg _ (rndZ (Zval x + Zval y))).
    + apply SFadd_rep; assumption.
    + apply rndZ_sign.
      pose proof (SFnonneg_Zval x Hx Hnx). pose proof (SFnonneg_Zval y Hy Hny). lia.
  - destruct y as [sy|sy| |sy my ey]; try discriminate.
    destruct x as [sx|sx| |sx mx ex]; try discriminate; exact Hny.
  - destruct x as [sx|sx| |sx mx ex]; try discriminate.
    destruct y as [sy|sy| |sy my ey]; try discriminate; exact Hnx.
  - destruct x as [sx|sx| |sx mx ex]; try discriminate.
    destruct y as [sy|sy| |sy my ey]; try discriminate.
    destruct sx, sy; try discriminate. reflexivity.
Qed.


(** Division only needs the sign: shifting and rounding keep a
    non-negative mantissa non-negative. *)
Lemma shr_nonneg (mrs : shr_record) (e n : Z) :
  0 <= shr_m mrs -> 0 <= shr_m (fst (shr mrs e n)).
Proof.
  intros Hm. destruct n as [|p|p]; cbn [shr fst]; try exact Hm.
  rewrite iter_pos_nat. induction (Pos.to_nat p) as [|k IH]; [exact Hm|].
  rewrite Nat.iter_succ. destruct (Nat.iter k shr_1 mrs) as [q r t'].
  cbn [shr_m] in IH. rewrite shr_1_nonneg by exact IH. cbn [shr_m].
  apply Z.div2_nonneg, IH.
Qed.

Lemma shr_fexp_nonneg (m e : Z) (l : location) :
  0 <= m -> 0 <= shr_m (fst (shr_fexp prec emax m e l)).
Proof.
  intros Hm. unfold shr_fexp. apply shr_nonneg.
  destruct l as [|[| |]]; exact Hm.
Qed.

Lemma binary_round_aux_nonneg (m e : Z) (l : location) :
  0 <= m -> SFnonneg (binary_round_aux prec emax false m e l) = true.
Proof.
  intros Hm. unfold binary_round_aux.
  pose proof (shr_fexp_nonneg m e l Hm) as H1.
  destruct (shr_fexp prec emax m e l) as [mrs' e']. cbn [fst] in H1.
  assert (H2 : 0 <= round_nearest_even (shr_m mrs') (loc_of_shr_record mrs')).
  { unfold round_nearest_even.
    destruct (loc_of_shr_record mrs') as [|[| |]]; try destruct (Z.even _); lia. }
  pose proof (shr_fexp_nonneg _ e' loc_Exact H2) as H3.
  destruct (shr_fexp prec emax _ e' loc_Exact) as [mrs'' e'']. cbn [fst] in H3.
  destruct (shr_m mrs'') as [|p|p]; try lia; try reflexivity.
  destruct (e'' <=? emax - prec); reflexivity.
Qed.

Lemma SFdiv_nonneg (x : spec_float) (my : positive) (ey : Z) :
  SFnonneg x = true ->
  SFnonneg (SFdiv prec emax x (S754_finite false my ey)) = true.
Proof.
  intros Hx. destruct x as [sx|sx| |sx mx ex]; try discriminate;
    cbn [SFnonneg] in Hx; destruct sx; try discriminate; try reflexivity.
  cbn [SFdiv xorb]. unfold SFdiv_core_binary.
  set (m' := match _ - _ with Z.pos _ => _ | Z0 => _ | Z.neg _ => _ end).
  assert (Hm' : 0 <= m').
  { subst m'. destruct (_ - _) as [|p|p]; try lia.
    apply Z.shiftl_nonneg. lia. }
  pose proof (Z.div_pos m' (Z.pos my) Hm' ltac:(lia)) as Hq.
  unfold Z.div in Hq. destruct (Z.div_eucl m' (Z.pos my)) as [q r].
  apply binary_round_aux_nonneg, Hq.
Qed.

(** A positive integer below [2^(emax-1)] converts to a positive finite
    float. *)
Lemma normalize_positive_int (n : Z) :
  0 < n < 2 ^ (emax - 1) ->
  exists m e, binary_normalize prec emax n 0 false = S754_finite false m e.
Proof.
  intros [Hn Hhi].
  assert (Hem : SpecFloat.emin prec emax = 3 - emax - prec) by reflexivity.
  pose proof (binary_normalize_rep n 0 ltac:(lia)) as Hrep.
  set (N := n * 2 ^ (0 - SpecFloat.emin prec emax)) in *.
  pose proof (pow2_pos (0 - SpecFloat.emin prec emax) ltac:(lia)) as Hp.
  assert (HN : 0 < N) by (unfold N; lia).
  rewrite rndZ_pos in Hrep by exact HN.
  pose proof (rnd_positive N HN) as Hpos.
  pose proof (rnd_upper N HN) as Hup.
  assert (Hlog : Z.log2 N = 0 - SpecFloat.emin prec emax + Z.log2 n)
    by (apply Z.log2_mul_pow2; lia).
  assert (Hlogn : Z.log2 n < emax - 1) by (apply Z.log2_lt_pow2; lia).
  assert (Htop : rnd N < top).
  { apply Z.le_lt_trans with (1 := Hup). unfold top. apply pow2_lt; lia. }
  destruct (binary_normalize prec emax n 0 false) as [s|s| |s m e];
    cbn [SFrep] in Hrep; try lia; try easy.
  - destruct s; lia.
  - destruct s; cbn [cond_Zopp] in Hrep; [lia|]. eauto.
Qed.

End Rounding.

(* ================================================================== *)
(** ** Double precision is an ordered, monotone arithmetic *)

Lemma is_finite_SFfinite (x : float) :
  PrimFloat.is_finite x = true -> Format.SFfinite (Prim2SF x) = true.
Proof.
  unfold PrimFloat.is_finite, Prim2SF.
  destruct (is_nan x); [discriminate|].
  destruct (is_infinity x); [discriminate|]. intros _.
  destruct (is_zero x); [reflexivity|].
  destruct (Z.frexp x) as [r ex].
  destruct (shr_fexp _ _ _ _ _) as [mrs e'].
  destruct (shr_m mrs); reflexivity.
Qed.

Lemma nonneg_SFnonneg (x : float) :
  PrimFloat.leb 0 x = Format.SFnonneg (Prim2SF x).
Proof. rewrite leb_spec. apply (SFleb_zero prec emax); reflexivity. Qed.

Lemma of_int_finite_positive (n : Z) :
  (0 < n <= maxsize)%Z ->
  exists m e, Prim2SF (PrimFloat.of_uint63 (Uint63.of_Z n)) = S754_finite false m e.
Proof.
  intros [Hn Hmax]. rewrite of_uint63_spec.
  assert (Hn63 : (n < 2 ^ 63)%Z) by (unfold maxsize in Hmax; lia).
  replace (Uint63Axioms.to_Z (Uint63.of_Z n)) with n.
  - apply (normalize_positive_int prec emax); [reflexivity|reflexivity|].
    split; [exact Hn|]. apply Z.lt_le_trans with (1 := Hn63).
    apply Z.pow_le_mono_r; [lia|]. unfold emax. lia.
  - symmetry. change (Uint63Axioms.to_Z (Uint63.of_Z n)) with (Uint63.to_Z (Uint63.of_Z n)).
    rewrite Uint63.of_Z_spec. apply Z.mod_small.
    change Uint63.wB with (2 ^ 63)%Z. lia.
Qed.

#[export] Instance binary64_ordered : OrderedArith float.
Proof.
  split; unfold nonneg;
    cbn [py_le py_zero py_of_int py_sub py_add py_div py_isfinite binary64].
  - intros x y z. rewrite !leb_spec.
    apply (SFleb_transitive prec emax); try reflexivity; apply Prim2SF_valid.
  - reflexivity.
  - reflexivity.
  - intros x y Hx Hy Hle. rewrite leb_spec in Hle.
    rewrite nonneg_SFnonneg, sub_spec.
    apply (SFsub_nonneg prec emax); try reflexivity;
      try apply Prim2SF_valid; try apply is_finite_SFfinite; assumption.
  - intros x y. rewrite !nonneg_SFnonneg, add_spec.
    apply (SFadd_nonneg prec emax); try reflexivity; apply Prim2SF_valid.
  - intros x n. rewrite !nonneg_SFnonneg, div_spec. intros Hx Hn.
    destruct (of_int_finite_positive n Hn) as (m & e & ->).
    apply (SFdiv_nonneg prec emax); [reflexivity|reflexivity|exact Hx].
Qed.

#[export] Instance binary64_monotone : MonotoneArith float.
Proof.
  split. cbn [py_le py_sub py_isfinite binary64].
  intros x y s Hx Hy Hs. rewrite !leb_spec, !sub_spec.
  apply (SFsub_monotone prec emax); try reflexivity;
    try apply Prim2SF_valid; try (apply is_finite_SFfinite; assumption).
  - rewrite <- sub_spec. apply Prim2SF_valid.
  - rewrite <- sub_spec. apply Prim2SF_valid.
Qed.

(** For every count [len] can return, the divisor CPython tests is not
    zero. *)
Lemma binary64_divisor_nonzero (n : Z) :
  (0 < n <= maxsize)%Z -> PrimFloat.eqb (py_of_int n) 0 = false.
Proof.
  intros Hn. cbn [py_of_int binary64]. rewrite FloatAxioms.eqb_spec.
  destruct (of_int_finite_positive n Hn) as (m & e & ->). reflexivity.
Qed.

(* ================================================================== *)
(** ** Claims on signs, order and telescoping *)

(** C5, as stated, fails: section 3 does not ask [start] to be no later
    than the first timestamp. With [start = 5], [timestamps = [1]] and
    [end = 10] every constraint of section 3 holds and the time to first
    token is [-4]. *)
Lemma nonnegative_metrics_counterexample :
  timing_input 5%float [1%float] 10%float = true /\
  all_real 5%float [1%float] 10%float = true /\
  exists m, compute_metrics 5%float [1%float] 10%float = Ok m /\
            ttft m = (-4)%float /\
            py_le py_zero (ttft m) = false.
Proof.
  split; [reflexivity|]. split; [reflexivity|].
  eexists. split; [reflexivity|]. split; reflexivity.
Qed.

(** C5, amended: for an input of real numbers (finite doubles, or
    rationals) that satisfies the constraints of section 3 and whose
    [start] is no later than the first timestamp, all three durations are
    non-negative and [token_count] is a non-negative integer. It holds in
    every ordered arithmetic, so for [binary64] ([binary64_ordered]) and
    for [exact] ([exact_ordered]). *)
Theorem nonnegative_metrics {F : Type} `{OrderedArith F}
    (start : F) (timestamps : list F) (last : F) :
  all_real start timestamps last = true ->
  (len timestamps <= maxsize)%Z ->
  timing_input start timestamps last = true ->
  starts_before start timestamps = true ->
  exists m,
    compute_metrics start timestamps last = Ok m /\
    nonneg (ttft m) /\ nonneg (tbt m) /\ nonneg (total_latency m) /\
    (0 <= token_count m)%Z.
Proof.
  intros Hreal Hlen Hinput Hfirst.
  unfold all_real in Hreal. unfold timing_input in Hinput.
  apply andb_prop in Hreal as [Hreal Hlast]. apply andb_prop in Hreal as [Hstart Hts].
  apply andb_prop in Hinput as [Hinput _]. apply andb_prop in Hinput as [Hnd Hse].
  eexists. split; [apply compute_metrics_eq|].
  cbn [ttft tbt total_latency token_count].
  split; [|split; [|split]].
  - destruct timestamps as [|t0 rest]; [apply zero_nonneg|].
    cbn [starts_before forallb] in *. apply andb_prop in Hts as [Ht0 _].
    apply sub_nonneg; assumption.
  - apply mean_gap_nonneg; assumption.
  - apply sub_nonneg; assumption.
  - unfold len. lia.
Qed.

(** C6, as stated, fails on an empty stream: nothing then relates [end]
    to [start]. With [start = 5], no timestamp and [end = 0] the
    hypotheses hold, the time to first token is [0.0] and the total
    latency is [-5]. *)
Lemma monotonic_input_counterexample :
  non_decreasing ([] : list float) = true /\
  ends_after ([] : list float) 0%float = true /\
  exists m, compute_metrics 5%float [] 0%float = Ok m /\
            ttft m = 0%float /\ total_latency m = (-5)%float /\
            py_le (ttft m) (total_latency m) = false.
Proof.
  split; [reflexivity|]. split; [reflexivity|].
  eexists. split; [reflexivity|]. repeat split; reflexivity.
Qed.

(** C6, amended: for an input of real numbers (finite doubles, or
    rationals), if [timestamps] is non-decreasing, [end] is no earlier
    than the last timestamp and, when there is no timestamp at all, [end]
    is no earlier than [start], then the mean gap is non-negative and the
    total latency is at least the time to first token. It holds in every
    ordered arithmetic whose subtraction is monotone, so for [binary64]
    ([binary64_monotone]: rounding to nearest is monotone) and for
    [exact]. *)
Theorem monotonic_input_invariant {F : Type} `{OrderedArith F} `{!MonotoneArith F}
    (start : F) (timestamps : list F) (last : F) :
  all_real start timestamps last = true ->
  (len timestamps <= maxsize)%Z ->
  non_decreasing timestamps = true ->
  ends_after timestamps last = true ->
  (timestamps = [] -> py_le start last = true) ->
  exists m,
    compute_metrics start timestamps last = Ok m /\
    nonneg (tbt m) /\
    py_le (ttft m) (total_latency m) = true.
Proof.
  intros Hreal Hlen Hnd Hend Hempty.
  unfold all_real in Hreal.
  apply andb_prop in Hreal as [Hreal Hlast]. apply andb_prop in Hreal as [Hstart Hts].
  eexists. split; [apply compute_metrics_eq|].
  cbn [ttft tbt total_latency]. split.
  - apply mean_gap_nonneg; assumption.
  - destruct timestamps as [|t0 rest].
    + apply sub_nonneg; auto.
    + cbn [forallb] in Hts. apply andb_prop in Hts as [Ht0 _].
      apply sub_monotone; try assumption.
      eapply first_before_end; eassumption.
Qed.

(** C9, as stated, fails in double precision: each difference is rounded,
    so the sum of the differences need not be the rounded difference of
    the endpoints. For [timestamps = [0.1, 0.4, 1.5]] the gaps are
    [0.30000000000000004] and [1.1], whose sum, [1.4000000000000001], is
    exact: the mean gap is [0.7000000000000001], and [(1.5 - 0.1) / 2] is
    [0.7]. (The addition loses nothing, so the result does not depend on
    how [sum] adds.) *)
Lemma telescoping_counterexample :
  exists m,
    compute_metrics 0%float [0.1; 0.4; 1.5]%float 2%float = Ok m /\
    tbt m = 0.7000000000000001%float /\
    py_div (py_sub 1.5%float 0.1%float) (py_of_int (3 - 1)) = 0.7%float /\
    PrimFloat.eqb (tbt m) (py_div (py_sub 1.5%float 0.1%float) (py_of_int (3 - 1)))
    = false.
Proof.
  eexists. split; [reflexivity|]. repeat split; reflexivity.
Qed.

(** On doubles the two sides need not even be close: in
    [[0.0, 1e16, 1.0]] the second difference rounds to [-1e16], the mean
    gap is [0.0], and [(1.0 - 0.0) / 2] is [0.5]. *)
Example telescoping_far_apart :
  exists m,
    compute_metrics 0%float [0; 1e16; 1]%float 2%float = Ok m /\
    tbt m = 0%float /\
    py_div (py_sub 1%float 0%float) (py_of_int (3 - 1)) = 0.5%float.
Proof. eexists. split; [reflexivity|]. split; reflexivity. Qed.

(** C9, amended: in exact arithmetic, for [n >= 2] timestamps the mean
    gap equals [(timestamps[n-1] - timestamps[0]) / (n - 1)]. *)
Theorem telescoping_mean_gap (start : Q) (timestamps : list Q) (last : Q) :
  (2 <= len timestamps)%Z ->
  exists m t0 tn,
    compute_metrics start timestamps last = Ok m /\
    timestamps !! 0%nat = Some t0 /\
    timestamps !! (length timestamps - 1)%nat = Some tn /\
    tbt m == (tn - t0) / inject_Z (len timestamps - 1).
Proof.
  intros Hlen.
  destruct timestamps as [|t0 rest]; [unfold len in Hlen; cbn in Hlen; lia|].
  destruct (list.last (t0 :: rest)) as [tn|] eqn:Hlast;
    [|apply last_None in Hlast; discriminate].
  eexists _, t0, tn. split; [apply compute_metrics_eq|].
  split; [reflexivity|]. split.
  { rewrite last_lookup in Hlast. rewrite <- Hlast. f_equal. lia. }
  cbn [tbt].
  destruct (Z.leb_spec (len (t0 :: rest)) 1) as [Hle|_]; [lia|].
  unfold arithmetic_mean, py_sum.
  cbn [py_div py_add py_of_int exact].
  rewrite (exact_sum_telescopes _ _ _ _ Hlast).
  unfold len. rewrite consecutive_differences_length.
  replace (Z.of_nat (pred (length (t0 :: rest))))
    with (Z.of_nat (length (t0 :: rest)) - 1)%Z by (cbn [length]; lia).
  change (inject_Z 0) with 0%Q. rewrite Qplus_0_l. reflexivity.
Qed.


(* ================================================================== *)
(** ** The theorems at concrete inputs *)


Lemma measure_latency_unset_key_witness :
  measure_latency "hello" (offline ∅)
  = (Raise (RuntimeError missing_key_message), offline ∅).
Proof.
  exact (proj1 (measure_latency_unset_key "hello" (offline ∅) eq_refl)).
Defined.

Lemma measure_latency_empty_key_witness :
  measure_latency "hello" (offline {[ "OPENAI_API_KEY" := "" ]})
  = (Raise (RuntimeError missing_key_message),
     offline {[ "OPENAI_API_KEY" := "" ]}).
Proof.
  exact (proj1 (measure_latency_empty_key "hello"
                  (offline {[ "OPENAI_API_KEY" := "" ]}) eq_refl)).
Defined.

Lemma nonnegative_metrics_witness :
  exists m, compute_metrics 0%float [1; 3; 6]%float 7%float = Ok m /\
            nonneg (ttft m) /\ nonneg (tbt m) /\ nonneg (total_latency m) /\
            (0 <= token_count m)%Z.
Proof.
  apply (nonnegative_metrics 0%float [1; 3; 6]%float 7%float);
    [reflexivity| |reflexivity..].
  vm_compute. discriminate.
Defined.

Lemma monotonic_input_invariant_witness :
  exists m, compute_metrics 0%float [1; 3; 6]%float 7%float = Ok m /\
            nonneg (tbt m) /\ py_le (ttft m) (total_latency m) = true.
Proof.
  apply (monotonic_input_invariant 0%float [1; 3; 6]%float 7%float);
    [reflexivity| |reflexivity|reflexivity|discriminate].
  vm_compute. discriminate.
Defined.

Lemma telescoping_mean_gap_witness :
  exists m t0 tn,
    compute_metrics 0%Q [1; 3; 6]%Q 7%Q = Ok m /\
    [1; 3; 6]%Q !! 0%nat = Some t0 /\
    [1; 3; 6]%Q !! 2%nat = Some tn /\
    tbt m == (tn - t0) / inject_Z 2.
Proof.
  apply (telescoping_mean_gap 0%Q [1; 3; 6]%Q 7%Q). vm_compute. discriminate.
Defined.


(* ################################################################## *)
(** * Further properties of the collector, the calculator and [main] *)

(* ================================================================== *)
(** ** What a run of the collector reads and sends *)

Section CollectorRun.
Context {F : Type} `{PyNumber F}.

Lemma tokens_le_length (chunks : list Chunk) : tokens chunks <= length chunks.
Proof. unfold tokens. apply List.filter_length_le. Qed.

Lemma readings_length (clk : nat -> F) (from count : nat) :
  length (readings clk from count) = count.
Proof. unfold readings. rewrite length_map, length_seq. reflexivity. Qed.

(** The loop takes one reading per token-carrying chunk, in order, and
    does nothing else. *)
Lemma collect_spec (chunks : list Chunk) (acc : list F) (w : World F) :
  collect chunks acc w
  = (Ok (acc ++ readings (clock w) (ticks w) (tokens chunks)),
     later w (tokens chunks)).
Proof.
  revert acc w. induction chunks as [|c rest IH]; intros acc w.
  - cbn. unfold ret, later. rewrite app_nil_r, Nat.add_0_r.
    destruct w; reflexivity.
  - cbn [collect]. unfold tokens in *. cbn [List.filter].
    destruct (carries_token c).
    + unfold bind, perf_counter. rewrite IH.
      cbn [clock ticks environ service sent length].
      unfold readings, later. cbn [seq map clock ticks environ service sent].
      rewrite <- app_assoc. cbn [app].
      replace (S (ticks w) + length (List.filter carries_token rest))
        with (ticks w + S (length (List.filter carries_token rest))) by lia.
      reflexivity.
    + apply IH.
Qed.

(** The whole of [measure_latency] once the key is usable, by what the
    service answers. *)
Lemma measure_latency_run (prompt key : string) (w : World F) :
  environ w !! "OPENAI_API_KEY" = Some key -> String.eqb key "" = false ->
  measure_latency prompt w
  = match service w (request_for w key prompt) with
    | Refused what =>
        (Raise (ServiceError what), requested w (request_for w key prompt) 1)
    | Streamed chunks (Some what) =>
        (Raise (ServiceError what),
         requested w (request_for w key prompt) (1 + tokens chunks))
    | Streamed chunks None =>
        (compute_metrics (clock w (ticks w))
           (readings (clock w) (S (ticks w)) (tokens chunks))
           (clock w (S (ticks w) + tokens chunks)),
         requested w (request_for w key prompt) (2 + tokens chunks))
    end.
Proof.
  intros Hkey Hne. unfold measure_latency, bind at 1, getenv.
  rewrite Hkey. cbn [truthy]. rewrite Hne. cbn [negb].
  unfold bind at 1, getenv_default. unfold bind at 1, perf_counter.
  unfold bind at 1, create. cbn [service environ clock ticks sent].
  change (default "" (Some key)) with key.
  fold (request_for w key prompt).
  destruct (service w (request_for w key prompt)) as [what|chunks broken].
  - unfold requested. rewrite Nat.add_1_r. reflexivity.
  - cbn [fst snd]. unfold bind at 1. rewrite collect_spec.
    cbn [app clock ticks]. unfold later, requested.
    cbn [environ clock ticks service sent].
    destruct broken as [what|].
    + unfold raise. f_equal. f_equal. lia.
    + unfold bind, perf_counter, lift. cbn [environ clock ticks service sent].
      f_equal. f_equal. lia.
Qed.

End CollectorRun.

Section CollectorTheorems.
Context {F : Type} `{PyNumber F}.

(** X1: the loop appends to the timestamps it is given exactly one clock
    reading per token-carrying chunk, the readings being consecutive ones
    in the order taken; chunks without a token cost no reading; nothing
    else in the world changes. *)
Theorem collect_one_reading_per_token
    (chunks : list Chunk) (acc : list F) (w : World F) :
  exists ts w',
    collect chunks acc w = (Ok ts, w') /\
    ts = acc ++ map (clock w) (seq (ticks w) (tokens chunks)) /\
    length ts = length acc + tokens chunks /\
    tokens chunks <= length chunks /\
    ticks w' = ticks w + tokens chunks /\
    environ w' = environ w /\ clock w' = clock w /\
    service w' = service w /\ sent w' = sent w.
Proof.
  eexists _, _. split; [apply collect_spec|].
  split; [reflexivity|]. split.
  - rewrite length_app, readings_length. reflexivity.
  - split; [apply tokens_le_length|]. repeat split.
Qed.

(** X2: with a usable key and a stream that ends normally,
    [measure_latency] returns metrics whose token count is the number of
    token-carrying chunks, whose time to first token is the difference of
    the first two clock readings (or [0.0] without a token), and whose
    total latency is the last reading minus the first; the clock has been
    read once before the request, once per token and once at the end. *)
Theorem measure_latency_streamed
    (prompt key : string) (chunks : list Chunk) (w : World F) :
  environ w !! "OPENAI_API_KEY" = Some key -> String.eqb key "" = false ->
  service w (request_for w key prompt) = Streamed chunks None ->
  exists m w',
    measure_latency prompt w = (Ok m, w') /\
    token_count m = Z.of_nat (tokens chunks) /\
    ttft m = (if Nat.eqb (tokens chunks) 0 then py_zero
              else py_sub (clock w (S (ticks w))) (clock w (ticks w))) /\
    tbt m = (if (Z.of_nat (tokens chunks) <=? 1)%Z then py_zero
             else arithmetic_mean
                    (consecutive_differences
                       (map (clock w) (seq (S (ticks w)) (tokens chunks))))) /\
    total_latency m
    = py_sub (clock w (S (ticks w) + tokens chunks)) (clock w (ticks w)) /\
    ticks w' = ticks w + (2 + tokens chunks).
Proof.
  intros Hkey Hne Hstream.
  rewrite (measure_latency_run prompt key w Hkey Hne), Hstream.
  rewrite compute_metrics_eq. eexists _, _. split; [reflexivity|].
  cbn [token_count ttft tbt total_latency].
  unfold len. rewrite readings_length.
  split; [reflexivity|]. split; [|repeat split].
  destruct (tokens chunks); reflexivity.
Qed.

(** X3: with a usable key, [measure_latency] calls
    [client.chat.completions.create] exactly once, whatever the call
    comes to: with the key, with the prompt as given, and with as model
    the value of [OPENAI_MODEL] when that variable is set (an empty value
    included) and ["gpt-4o-mini"] when it is not. (How many HTTP requests
    the client sends for that one call is the library's matter.) *)
Theorem measure_latency_request (prompt key : string) (w : World F) :
  environ w !! "OPENAI_API_KEY" = Some key -> String.eqb key "" = false ->
  sent (snd (measure_latency prompt w))
  = mkRequest key
      (match environ w !! "OPENAI_MODEL" with
       | Some model => model
       | None => "gpt-4o-mini"
       end)
      prompt
    :: sent w.
Proof.
  intros Hkey Hne. rewrite (measure_latency_run prompt key w Hkey Hne).
  unfold request_for.
  destruct (service w _) as [what|chunks [what|]]; cbn [snd requested sent];
    destruct (environ w !! "OPENAI_MODEL"); reflexivity.
Qed.

(** X4: when the call of [create] raises (the service refuses the
    request), or the stream breaks off,
    [measure_latency] raises the service's exception and returns no
    metrics, however many tokens had arrived; the clock has then been
    read once before the request and once per token received. *)
Theorem measure_latency_service_failure
    (prompt key what : string) (w : World F) :
  environ w !! "OPENAI_API_KEY" = Some key -> String.eqb key "" = false ->
  (service w (request_for w key prompt) = Refused what ->
   exists w', measure_latency prompt w = (Raise (ServiceError what), w') /\
              ticks w' = ticks w + 1) /\
  (forall chunks,
      service w (request_for w key prompt) = Streamed chunks (Some what) ->
      exists w', measure_latency prompt w = (Raise (ServiceError what), w') /\
                 ticks w' = ticks w + (1 + tokens chunks)).
Proof.
  intros Hkey Hne. rewrite (measure_latency_run prompt key w Hkey Hne).
  split.
  - intros ->. eexists. split; reflexivity.
  - intros chunks ->. eexists. split; reflexivity.
Qed.

End CollectorTheorems.

Lemma measure_latency_streamed_witness :
  exists m w',
    measure_latency "hello"
      (steady with_key (Streamed [token_chunk "Hi"; keepalive_chunk; token_chunk "!"] None))
    = (Ok m, w') /\ token_count m = 2%Z.
Proof.
  destruct (measure_latency_streamed "hello" "sk-test"
              [token_chunk "Hi"; keepalive_chunk; token_chunk "!"]
              (steady with_key
                 (Streamed [token_chunk "Hi"; keepalive_chunk; token_chunk "!"] None))
              eq_refl eq_refl eq_refl)
    as (m & w' & Hrun & Hcount & _).
  exists m, w'. split; assumption.
Defined.

Lemma measure_latency_request_witness :
  sent (snd (measure_latency "hello" (steady with_key (Refused "503"))))
  = [mkRequest "sk-test" "gpt-4o-mini" "hello"].
Proof.
  exact (measure_latency_request "hello" "sk-test"
           (steady with_key (Refused "503")) eq_refl eq_refl).
Defined.

Lemma measure_latency_service_failure_witness :
  exists w', measure_latency "hello" (steady with_key (Refused "503"))
             = (Raise (ServiceError "503"), w') /\ ticks w' = 1.
Proof.
  exact (proj1 (measure_latency_service_failure "hello" "sk-test" "503"
                  (steady with_key (Refused "503")) eq_refl eq_refl) eq_refl).
Defined.

(* ================================================================== *)
(** ** A monotonic clock gives non-negative metrics *)

Section MonotonicClock.
Context {F : Type} `{OrderedArith F} `{!MonotoneArith F}.
Variable clk : nat -> F.
Hypothesis clk_monotonic : forall n, py_le (clk n) (clk (S n)) = true.
Hypothesis clk_finite : forall n, py_isfinite (clk n) = true.

Lemma clock_earlier (a b : nat) : a < b -> py_le (clk a) (clk b) = true.
Proof.
  induction b as [|b IH]; [lia|]. intros Hab.
  destruct (Nat.eq_dec a b) as [->|Hne]; [apply clk_monotonic|].
  apply (le_transitive _ (clk b)); [apply IH; lia|apply clk_monotonic].
Qed.

Lemma readings_non_decreasing (from count : nat) :
  non_decreasing (readings clk from count) = true.
Proof.
  revert from. induction count as [|[|count] IH]; intros from; try reflexivity.
  change (readings clk from (S (S count)))
    with (clk from :: readings clk (S from) (S count)).
  change (readings clk (S from) (S count))
    with (clk (S from) :: readings clk (S (S from)) count) at 1.
  cbn [non_decreasing]. rewrite clk_monotonic. cbn [andb].
  apply (IH (S from)).
Qed.

Lemma readings_finite (from count : nat) :
  forallb py_isfinite (readings clk from count) = true.
Proof.
  unfold readings. apply forallb_forall. intros x Hx.
  apply in_map_iff in Hx as (n & <- & _). apply clk_finite.
Qed.

End MonotonicClock.

(** X6: if the clock never runs backwards and shows real numbers, every
    measurement [measure_latency] returns has a non-negative time to first
    token, a non-negative mean gap and a total latency that is at least
    the time to first token (so non-negative too). It holds in every
    ordered, monotone arithmetic: for doubles and for rationals. *)
Theorem measure_latency_monotonic_clock
    {F : Type} `{OrderedArith F} `{!MonotoneArith F}
    (prompt key : string) (chunks : list Chunk) (w : World F) :
  (forall n, py_le (clock w n) (clock w (S n)) = true) ->
  (forall n, py_isfinite (clock w n) = true) ->
  environ w !! "OPENAI_API_KEY" = Some key -> String.eqb key "" = false ->
  service w (request_for w key prompt) = Streamed chunks None ->
  (Z.of_nat (length chunks) <= maxsize)%Z ->
  exists m,
    fst (measure_latency prompt w) = Ok m /\
    nonneg (ttft m) /\ nonneg (tbt m) /\ nonneg (total_latency m) /\
    py_le (ttft m) (total_latency m) = true.
Proof.
  intros Hmono Hfin Hkey Hne Hstream Hmax.
  rewrite (measure_latency_run prompt key w Hkey Hne), Hstream.
  rewrite compute_metrics_eq. eexists. split; [reflexivity|].
  cbn [ttft tbt total_latency].
  pose proof (tokens_le_length chunks) as Htok.
  assert (Htotal : nonneg (py_sub (clock w (S (ticks w) + tokens chunks))
                                  (clock w (ticks w)))).
  { apply sub_nonneg; try apply Hfin.
    apply (clock_earlier (clock w) Hmono Hfin); lia. }
  split; [|split; [|split; [exact Htotal|]]].
  - destruct (tokens chunks) as [|k]; [apply zero_nonneg|].
    change (readings (clock w) (S (ticks w)) (S k))
      with (clock w (S (ticks w)) :: readings (clock w) (S (S (ticks w))) k).
    apply sub_nonneg; try apply Hfin. apply Hmono.
  - apply mean_gap_nonneg.
    + apply (readings_finite (clock w) Hmono Hfin).
    + apply (readings_non_decreasing (clock w) Hmono Hfin).
    + unfold len. rewrite readings_length. lia.
  - destruct (tokens chunks) as [|k] eqn:Hk; [exact Htotal|].
    change (readings (clock w) (S (ticks w)) (S k))
      with (clock w (S (ticks w)) :: readings (clock w) (S (S (ticks w))) k).
    apply sub_monotone; try apply Hfin.
    apply (clock_earlier (clock w) Hmono Hfin). lia.
Qed.

Lemma measure_latency_monotonic_clock_witness :
  exists m,
    fst (measure_latency "hello"
           (steady with_key (Streamed [token_chunk "Hi"; token_chunk "!"] None)))
    = Ok m /\
    nonneg (ttft m) /\ nonneg (tbt m) /\ nonneg (total_latency m) /\
    py_le (ttft m) (total_latency m) = true.
Proof.
  apply (measure_latency_monotonic_clock "hello" "sk-test"
           [token_chunk "Hi"; token_chunk "!"]);
    [intros n; reflexivity|intros n; reflexivity|reflexivity..|].
  vm_compute. discriminate.
Defined.

(* ================================================================== *)
(** ** The calculator in exact arithmetic *)

(** With at least two timestamps the mean gap is the span from the first
    to the last timestamp, divided by the number of gaps. *)
Lemma exact_mean_gap (a : Q) (rest : list Q) (tn : Q) :
  list.last (a :: rest) = Some tn ->
  arithmetic_mean (consecutive_differences (a :: rest))
  == (tn - a) / inject_Z (len rest).
Proof.
  intros Hlast. unfold arithmetic_mean, py_sum.
  cbn [py_div py_add py_of_int exact].
  rewrite (exact_sum_telescopes _ _ _ _ Hlast).
  unfold len. rewrite consecutive_differences_length. cbn [length pred].
  change (inject_Z 0) with 0%Q. rewrite Qplus_0_l. reflexivity.
Qed.

Lemma len_positive {A} (x : A) (rest : list A) :
  (1 < len (x :: rest))%Z -> (0 < inject_Z (len rest))%Q.
Proof.
  unfold len. cbn [length]. intros Hlen.
  change 0%Q with (inject_Z 0). rewrite <- Zlt_Qlt. lia.
Qed.

Lemma last_map_add (c : Q) (ts : list Q) (tn : Q) :
  list.last ts = Some tn ->
  list.last (map (fun t => t + c)%Q ts) = Some (tn + c)%Q.
Proof.
  induction ts as [|a [|b rest] IH]; intros Hlast; try discriminate.
  - injection Hlast as <-. reflexivity.
  - rewrite last_cons_cons in Hlast. cbn [map]. rewrite last_cons_cons.
    apply IH, Hlast.
Qed.

(** X7: in exact arithmetic, for a non-empty list of timestamps, the
    total latency splits into the time to first token, the [n - 1] gaps
    (that is [n - 1] times their mean) and the time from the last token
    to the end of the stream. *)
Theorem exact_latency_decomposition
    (start : Q) (timestamps : list Q) (last tn : Q) :
  list.last timestamps = Some tn ->
  exists m,
    compute_metrics start timestamps last = Ok m /\
    total_latency m
    == ttft m + inject_Z (len timestamps - 1) * tbt m + (last - tn).
Proof.
  intros Hlast. destruct timestamps as [|a rest]; [discriminate|].
  eexists. split; [apply compute_metrics_eq|].
  cbn [ttft tbt total_latency py_sub py_zero exact].
  destruct (Z.leb_spec (len (a :: rest)) 1) as [Hle|Hgt].
  - destruct rest as [|b rest]; [|unfold len in Hle; cbn [length] in Hle; lia].
    injection Hlast as <-. cbn. lra.
  - rewrite (exact_mean_gap a rest tn Hlast).
    pose proof (len_positive a rest Hgt) as Hpos.
    replace (len (a :: rest) - 1)%Z with (len rest)
      by (unfold len; cbn [length]; lia).
    field. lra.
Qed.

Lemma exact_latency_decomposition_witness :
  exists m,
    compute_metrics 0%Q [1; 3; 6]%Q 7%Q = Ok m /\
    total_latency m == ttft m + inject_Z 2 * tbt m + (7 - 6).
Proof.
  exact (exact_latency_decomposition 0%Q [1; 3; 6]%Q 7%Q 6%Q eq_refl).
Defined.

(** X8: in exact arithmetic the metrics depend on differences only:
    moving [start], every timestamp and [end] by the same amount changes
    none of them. *)
Theorem exact_translation_invariance
    (c start : Q) (timestamps : list Q) (last : Q) :
  exists m m',
    compute_metrics start timestamps last = Ok m /\
    compute_metrics (start + c)%Q (map (fun t => t + c)%Q timestamps) (last + c)%Q
    = Ok m' /\
    ttft m' == ttft m /\ tbt m' == tbt m /\
    total_latency m' == total_latency m /\
    token_count m' = token_count m.
Proof.
  eexists _, _. split; [apply compute_metrics_eq|].
  split; [apply compute_metrics_eq|].
  cbn [ttft tbt total_latency token_count py_sub py_zero exact].
  assert (Hlen : len (map (fun t => t + c)%Q timestamps) = len timestamps)
    by (unfold len; rewrite length_map; reflexivity).
  rewrite Hlen.
  split; [|split; [|split; [lra|reflexivity]]].
  - destruct timestamps as [|a rest]; cbn [map]; lra.
  - destruct (Z.leb_spec (len timestamps) 1) as [_|Hgt]; [reflexivity|].
    destruct timestamps as [|a rest]; [unfold len in Hgt; cbn in Hgt; lia|].
    destruct (list.last (a :: rest)) as [tn|] eqn:Hlast;
      [|apply last_None in Hlast; discriminate].
    pose proof (last_map_add c _ _ Hlast) as Hlast'. cbn [map] in *.
    rewrite (exact_mean_gap _ _ _ Hlast'), (exact_mean_gap _ _ _ Hlast).
    pose proof (len_positive a rest Hgt) as Hpos.
    replace (len (map (fun t => t + c)%Q rest)) with (len rest)
      by (unfold len; rewrite length_map; reflexivity).
    field. lra.
Qed.

(** X9: nothing checks the order of the timestamps, and in exact
    arithmetic only the two ends matter: with at least two timestamps the
    mean gap is non-negative exactly when the last timestamp is no
    earlier than the first, whatever lies between them. *)
Theorem exact_mean_gap_sign
    (start : Q) (timestamps : list Q) (last t0 tn : Q) :
  (2 <= len timestamps)%Z ->
  head timestamps = Some t0 -> list.last timestamps = Some tn ->
  exists m,
    compute_metrics start timestamps last = Ok m /\
    (0 <= tbt m <-> t0 <= tn)%Q.
Proof.
  intros Hlen Hhead Hlast.
  destruct timestamps as [|a rest]; [discriminate|]. injection Hhead as ->.
  eexists. split; [apply compute_metrics_eq|]. cbn [tbt].
  destruct (Z.leb_spec (len (t0 :: rest)) 1) as [Hle|Hgt]; [lia|].
  rewrite (exact_mean_gap t0 rest tn Hlast).
  pose proof (len_positive t0 rest Hgt) as Hpos.
  set (k := inject_Z (len rest)) in *.
  assert (Hmul : (tn - t0) / k * k == tn - t0) by (field; lra).
  split.
  - intros Hmean.
    pose proof (Qmult_le_0_compat _ _ Hmean (Qlt_le_weak _ _ Hpos)) as Hprod.
    rewrite Hmul in Hprod. lra.
  - intros Hle. apply Qle_shift_div_l; [exact Hpos|]. lra.
Qed.

Lemma exact_mean_gap_sign_witness :
  exists m,
    compute_metrics 0%Q [5; 9; 2; 4]%Q 7%Q = Ok m /\
    (0 <= tbt m <-> 5 <= 4)%Q.
Proof.
  apply (exact_mean_gap_sign 0%Q [5; 9; 2; 4]%Q 7%Q 5%Q 4%Q);
    [vm_compute; discriminate|reflexivity|reflexivity].
Defined.

(* ================================================================== *)
(** ** Doubles: what cannot be NaN *)

(** The difference of two finite doubles may overflow to an infinity but
    is never NaN. *)
Lemma finite_difference_not_nan (x y : float) :
  PrimFloat.is_finite x = true -> PrimFloat.is_finite y = true ->
  PrimFloat.is_nan (x - y)%float = false.
Proof.
  intros Hx Hy.
  pose proof (SFsub_rep prec emax eq_refl eq_refl (Prim2SF x) (Prim2SF y)
                (Prim2SF_valid x) (Prim2SF_valid y)
                (is_finite_SFfinite x Hx) (is_finite_SFfinite y Hy)) as Hrep.
  change (SFsub prec emax) with SF64sub in Hrep. rewrite <- sub_spec in Hrep.
  destruct (PrimFloat.is_nan (x - y)%float) eqn:Hnan; [|reflexivity].
  unfold Prim2SF in Hrep. rewrite Hnan in Hrep. destruct Hrep.
Qed.

(** X10: on finite doubles, in whatever order, the time to first token
    and the total latency are never NaN. (The mean gap can be: see
    [mean_gap_nan].) *)
Theorem binary64_durations_not_nan
    (start : float) (timestamps : list float) (last : float) :
  all_real start timestamps last = true ->
  exists m,
    compute_metrics start timestamps last = Ok m /\
    PrimFloat.is_nan (ttft m) = false /\
    PrimFloat.is_nan (total_latency m) = false.
Proof.
  unfold all_real. cbn [py_isfinite binary64]. intros Hreal.
  apply andb_prop in Hreal as [Hreal Hlast].
  apply andb_prop in Hreal as [Hstart Hts].
  eexists. split; [apply compute_metrics_eq|].
  cbn [ttft total_latency py_sub py_zero binary64]. split.
  - destruct timestamps as [|t0 rest]; [reflexivity|].
    cbn [forallb] in Hts. apply andb_prop in Hts as [Ht0 _].
    apply finite_difference_not_nan; assumption.
  - apply finite_difference_not_nan; assumption.
Qed.

Lemma binary64_durations_not_nan_witness :
  exists m,
    compute_metrics 0%float [6; 1; 3]%float 2%float = Ok m /\
    PrimFloat.is_nan (ttft m) = false /\
    PrimFloat.is_nan (total_latency m) = false.
Proof.
  exact (binary64_durations_not_nan 0%float [6; 1; 3]%float 2%float eq_refl).
Defined.

(** Two gaps that overflow in opposite directions: the mean gap of
    finite, unordered timestamps is NaN. *)
Example mean_gap_nan :
  exists m,
    compute_metrics 0%float
      [-0x1.fffffffffffffp+1023; 0x1.fffffffffffffp+1023;
       -0x1.fffffffffffffp+1023]%float 0%float = Ok m /\
    all_real 0%float
      [-0x1.fffffffffffffp+1023; 0x1.fffffffffffffp+1023;
       -0x1.fffffffffffffp+1023]%float 0%float = true /\
    PrimFloat.is_nan (tbt m) = true.
Proof. eexists. split; [reflexivity|]. split; reflexivity. Qed.

(* ================================================================== *)
(** ** The command line *)

Section MainFacts.
Context {F : Type} `{PyNumber F}.
Variable argparse : list string -> Parsed.
Variable dumps : LatencyMetrics F -> string.

(** X11: [main] never consults the command line of the process. Called
    without an argument list, as the script does, or with an empty one,
    it hands the parser the empty list; the parser then misses its
    required positional argument and exits, and [main] exits with it
    before the environment, the clock or the network is touched. *)
Theorem main_without_arguments (status : Z) (out : list string) (p : Process F) :
  argparse [] = Exit status out ->
  main argparse dumps None p = main argparse dumps (Some []) p /\
  main argparse dumps None p
  = (Exited status, mkProcess (world p) (stdout p ++ out)).
Proof.
  intros Hparse. unfold main, parse_args, or_empty. rewrite Hparse.
  split; reflexivity.
Qed.

(** X12: for arguments the parser accepts, a missing or empty
    [OPENAI_API_KEY] ends [main] with the uncaught [RuntimeError]; nothing
    has been printed and nothing has been sent. *)
Theorem main_missing_key
    (argv : option (list string)) (prompt : string) (p : Process F) :
  argparse (or_empty argv) = Prompt prompt ->
  truthy (environ (world p) !! "OPENAI_API_KEY") = false ->
  main argparse dumps argv p = (Uncaught (RuntimeError missing_key_message), p).
Proof.
  intros Hparse Hkey. unfold main, parse_args. rewrite Hparse.
  unfold measure_latency, bind, getenv. rewrite Hkey. cbn.
  destruct p; reflexivity.
Qed.

(** X13: [main] catches nothing and prints no partial result. When it
    ends with an uncaught exception, standard output is as it was, and
    the exception is either the [RuntimeError] for the missing key
    (nothing sent, no reading taken) or one raised by the service. *)
Theorem main_uncaught
    (argv : option (list string)) (p p' : Process F) (e : exn) :
  main argparse dumps argv p = (Uncaught e, p') ->
  stdout p' = stdout p /\
  ((e = RuntimeError missing_key_message /\ world p' = world p) \/
   exists what, e = ServiceError what).
Proof.
  unfold main, parse_args.
  destruct (argparse (or_empty argv)) as [prompt|status out]; [|discriminate].
  destruct (measure_latency prompt (world p)) as [[m|e'] w'] eqn:Hrun;
    [discriminate|].
  intros [= <- <-]. split; [reflexivity|]. cbn [world].
  destruct (environ (world p) !! "OPENAI_API_KEY") as [key|] eqn:Hkey.
  - destruct (String.eqb_spec key "") as [->|Hne].
    + left. unfold measure_latency, bind, getenv in Hrun.
      rewrite Hkey in Hrun. cbn in Hrun. injection Hrun as <- <-. auto.
    + right. eapply measure_latency_with_key; eassumption.
  - left. unfold measure_latency, bind, getenv in Hrun.
    rewrite Hkey in Hrun. cbn in Hrun. injection Hrun as <- <-. auto.
Qed.

End MainFacts.

Lemma main_without_arguments_witness :
  main one_argument (fun _ => "{}") None (mkProcess (offline with_key) [])
  = (Exited 2, mkProcess (offline with_key) []).
Proof.
  exact (proj2 (main_without_arguments one_argument (fun _ => "{}") 2 []
                  (mkProcess (offline with_key) []) eq_refl)).
Defined.

Lemma main_missing_key_witness :
  main one_argument (fun _ => "{}") (Some ["hello"]) (mkProcess (offline ∅) [])
  = (Uncaught (RuntimeError missing_key_message), mkProcess (offline ∅) []).
Proof.
  exact (main_missing_key one_argument (fun _ => "{}") (Some ["hello"]) "hello"
           (mkProcess (offline ∅) []) eq_refl eq_refl).
Defined.

Lemma main_uncaught_witness :
  stdout (snd (main one_argument (fun _ => "{}") (Some ["hello"])
                 (mkProcess (steady with_key (Refused "503")) ["earlier"])))
  = ["earlier"].
Proof.
  exact (proj1 (main_uncaught one_argument (fun _ => "{}") (Some ["hello"])
                  (mkProcess (steady with_key (Refused "503")) ["earlier"])
                  _ _ eq_refl)).
Defined.
